(** * pureimage: pixel buffer, compositor, paths, flattening, gradients, clip

  A shallow embedding of the rasterisation core of [src/context.ts], of the
  pixel buffer ([Bitmap], [src/unnamed/part_000]) and of the gradients
  ([src/unnamed/part_001]).

  JavaScript numbers are IEEE 754 binary64 values; they are embedded as
  Rocq's primitive [float], whose [+], [-], [*], [/], [sqrt] and comparisons
  are the same correctly rounded binary64 operations.  32-bit colours and
  buffer indices are embedded as [Z], with the wrap-around written out. *)

From Stdlib Require Import ZArith Floats Uint63 Lia.
From stdpp Require Import base list strings.

Set Default Proof Using "Type".
Local Open Scope Z_scope.

(** ** JavaScript numbers *)

Module JS.

Abbreviation number := float.

(** Reading an array element that is not there gives [undefined], which
    arithmetic turns into [NaN]. *)
#[global] Instance number_inhabited : Inhabited number := populate nan.

(** The integer [z] as a number (exact for [|z| < 2^53]). *)
Definition of_Z (z : Z) : number :=
  match z with
  | Z0 => 0%float
  | Zpos _ => of_uint63 (Uint63.of_Z z)
  | Zneg p => (- of_uint63 (Uint63.of_Z (Zpos p)))%float
  end.

(** The value of a finite number as [m * 2^e], rounded down ([floor]) or
    toward zero ([trunc]). *)
Definition scale2 (m : positive) (e : Z) (neg : bool) (down : bool) : Z :=
  let v := if neg then Zneg m else Zpos m in
  match e with
  | Z0 => v
  | Zpos p => Z.shiftl v (Zpos p)
  | Zneg p => if down then Z.shiftr v (Zpos p)
              else Z.quot v (Z.shiftl 1 (Zpos p))
  end.

(** [ToInt32]/[ToUint32] start by truncating toward zero, and send [NaN]
    and the infinities to [0] (ECMA-262, 7.1.6). *)
Definition trunc (x : number) : Z :=
  match Prim2SF x with
  | S754_finite s m e => scale2 m e s false
  | _ => 0
  end.

(** The result of [Math.floor]: an integer, or the argument itself when it
    is [NaN] or infinite. *)
Inductive floored :=
| FInt (z : Z)
| FNaN
| FPosInf
| FNegInf.

Definition Math_floor (x : number) : floored :=
  match Prim2SF x with
  | S754_zero _ => FInt 0
  | S754_finite s m e => FInt (scale2 m e s true)
  | S754_infinity false => FPosInf
  | S754_infinity true => FNegInf
  | S754_nan => FNaN
  end.

(** [a < n] and [a >= n] for a floored number [a] and an integer [n]; every
    comparison with [NaN] is false. *)
Definition flt (a : floored) (n : Z) : bool :=
  match a with
  | FInt z => bool_decide (z < n)
  | FNegInf => true
  | FNaN | FPosInf => false
  end.

Definition fge (a : floored) (n : Z) : bool :=
  match a with
  | FInt z => bool_decide (n <= z)
  | FPosInf => true
  | FNaN | FNegInf => false
  end.

(** Equality of two numbers as values: [NaN] equals [NaN], and 0 differs
    from -0. *)
Definition feq (a b : number) : bool := PrimFloat.Leibniz.eqb a b.

(** [Math.pow(x, 2)]: the square, correctly rounded. *)
Definition Math_pow2 (x : number) : number := (x * x)%float.

End JS.

(** ** uint32 *)

Module uint32.
Import JS.

(** Modelled from the spec: [uint32.getBytesBigEndian], of which [src/] has
    only the import.  "Big-endian packing when represented as a single
    32-bit integer (0xRRGGBBAA)": the four bytes of a colour, most
    significant first. *)
Definition getBytesBigEndian (rgba : Z) : list Z :=
  [ Z.land (Z.shiftr rgba 24) 255;
    Z.land (Z.shiftr rgba 16) 255;
    Z.land (Z.shiftr rgba 8) 255;
    Z.land rgba 255 ].

(** Modelled from the spec: [uint32.fromBytesBigEndian], the inverse packing
    [(b0 << 24 | b1 << 16 | b2 << 8 | b3) >>> 0].  The arguments are the
    integers the bit operators see; the callers below apply [JS.trunc] to
    numbers and read [undefined] as [0]. *)
Definition fromBytesBigEndian (b0 b1 b2 b3 : Z) : Z :=
  Z.lor (Z.lor (Z.lor (Z.shiftl b0 24) (Z.shiftl b1 16)) (Z.shiftl b2 8)) b3
    mod 2 ^ 32.

Definition is_uint32 (c : Z) : Prop := 0 <= c < 2 ^ 32.
Definition is_byte (b : Z) : Prop := 0 <= b < 256.

(** The 256 bytes. *)
Definition all_bytes : list Z := Z.of_nat <$> seq 0 256.

(** [b / 255] for a byte [b]: a channel in the range 0 to 1. *)
Definition unit_of_byte (b : Z) : number := (of_Z b / 255)%float.

End uint32.

(** ** Bitmap *)

Module Bitmap.
Import JS uint32.

Record Bitmap := mkBitmap {
  width : Z;
  height : Z;
  data : list Z;       (* the Buffer: one byte per element *)
}.

(** [data[i + k]], with [None] for [undefined] (no such element, or the
    index is [NaN]). *)
Definition get_byte (d : list Z) (i : option Z) (k : Z) : option Z :=
  match i with
  | Some i => if bool_decide (0 <= i + k) then d !! Z.to_nat (i + k) else None
  | None => None
  end.

(** [data[i + k] = v]: a Buffer stores [v] modulo 256, and ignores a store
    outside its length or at [NaN]. *)
Definition set_byte (d : list Z) (i : option Z) (k : Z) (v : Z) : list Z :=
  match i with
  | Some i =>
      if bool_decide (0 <= i + k) then <[Z.to_nat (i + k) := v mod 256]> d
      else d
  | None => d
  end.

Definition undefined_as_0 (v : option Z) : Z := default 0 v.

(** [new Bitmap(w, h)] for integers [w], [h]: a zero-filled Buffer; the
    constructor's loop then stores transparent (0) in every pixel. *)
Definition new (w h : Z) : Bitmap :=
  mkBitmap w h (replicate (Z.to_nat (w * h * 4)) 0).

(** [calculateIndex]: [None] is the index [NaN]. *)
Definition calculateIndex (b : Bitmap) (x y : number) : option Z :=
  let x := Math_floor x in
  let y := Math_floor y in
  if flt x 0 || flt y 0 || fge x (width b) || fge y (height b) then Some 0
  else
    match x, y with
    | FInt x, FInt y => Some ((width b * y + x) * 4)
    | _, _ => None
    end.

Definition setPixelRGBA (b : Bitmap) (x y : number) (rgba : Z) : Bitmap :=
  let i := calculateIndex b x y in
  let bytes := getBytesBigEndian rgba in
  let d := set_byte (data b) i 0 (bytes !!! 0%nat) in
  let d := set_byte d i 1 (bytes !!! 1%nat) in
  let d := set_byte d i 2 (bytes !!! 2%nat) in
  let d := set_byte d i 3 (bytes !!! 3%nat) in
  mkBitmap (width b) (height b) d.

Definition getPixelRGBA (b : Bitmap) (x y : number) : Z :=
  let i := calculateIndex b x y in
  fromBytesBigEndian
    (undefined_as_0 (get_byte (data b) i 0))
    (undefined_as_0 (get_byte (data b) i 1))
    (undefined_as_0 (get_byte (data b) i 2))
    (undefined_as_0 (get_byte (data b) i 3)).

(** The coordinates the guard of [calculateIndex] rejects. *)
Definition out_of_bounds (b : Bitmap) (x y : number) : bool :=
  flt (Math_floor x) 0 || flt (Math_floor y) 0
  || fge (Math_floor x) (width b) || fge (Math_floor y) (height b).

(** A 2x2 buffer whose pixel (0,0) is [0x11223344]. *)
Definition sample_bitmap : Bitmap :=
  setPixelRGBA (new 2 2) 0 0 0x11223344.

Definition setPixelRGBA_i (b : Bitmap) (x y : number) (r g bl a : number)
    : Bitmap :=
  let i := calculateIndex b x y in
  let d := set_byte (data b) i 0 (trunc r) in
  let d := set_byte d i 1 (trunc g) in
  let d := set_byte d i 2 (trunc bl) in
  let d := set_byte d i 3 (trunc a) in
  mkBitmap (width b) (height b) d.

(** [this.data.slice(i, i + 4)]: the bytes from [i] up to [i + 4], as far as
    the buffer has them; none when [i] is [NaN]. *)
Definition getPixelRGBA_separate (b : Bitmap) (x y : number) : list Z :=
  match calculateIndex b x y with
  | Some i => take 4 (drop (Z.to_nat i) (data b))
  | None => []
  end.

(** The buffer holds four bytes for each pixel of a [width] by [height]
    grid. *)
Definition wf (b : Bitmap) : Prop :=
  0 <= width b /\ 0 <= height b /\
  length (data b) = Z.to_nat (width b * height b * 4).

(** Modelled from the spec: [NAMED_COLORS.transparent], of which [src/]
    has only the import; "fully-transparent black". *)
Definition NAMED_COLORS_transparent : Z := 0x00000000.

(** The constructor as it is written, for non-negative integers [w] and
    [h]: [Buffer.alloc], then the two loops that store [fillval] in every
    pixel, row by row.  The counters are integers, exact as numbers. *)
Definition constructor (w h : Z) : Bitmap :=
  let fillval := NAMED_COLORS_transparent in
  foldl (fun b j =>
           foldl (fun b i => setPixelRGBA b (of_Z i) (of_Z j) fillval)
                 b (seqZ 0 w))
        (mkBitmap w h (replicate (Z.to_nat (w * h * 4)) 0)) (seqZ 0 h).

(** The coordinates ([xi], [yi] after [Math.floor]) of a pixel of the
    buffer. *)
Definition in_bounds (b : Bitmap) (x y : number) (xi yi : Z) : Prop :=
  Math_floor x = FInt xi /\ Math_floor y = FInt yi
  /\ 0 <= xi < width b /\ 0 <= yi < height b.

End Bitmap.

(** ** Outcomes of a call *)

Inductive exn :=
| TypeError          (* a property of [null] or [undefined] was read *)
| ColorParseError.   (* the colour parser rejected its string *)

(** A call returns a value, throws, or (in the model only) has not finished
    within the fuel it was given. *)
Inductive outcome (A : Type) : Type :=
| Ret (a : A)
| Throw (e : exn)
| OutOfFuel.
Arguments Ret {A} a.
Arguments Throw {A} e.
Arguments OutOfFuel {A}.

#[global] Instance outcome_ret : MRet outcome := fun A a => Ret a.
#[global] Instance outcome_bind : MBind outcome := fun A B f m =>
  match m with
  | Ret a => f a
  | Throw e => Throw e
  | OutOfFuel => OutOfFuel
  end.

#[global] Instance outcome_fmap : FMap outcome := fun A B f m =>
  match m with
  | Ret a => Ret (f a)
  | Throw e => Throw e
  | OutOfFuel => OutOfFuel
  end.

(** ** Points, lines and the helpers of [util] *)

Module Geom.
Import JS.

Record Point := mkPoint { x : number; y : number }.

(** A [Line] holds whatever it was built from: [pathToLines] passes [null]
    for the start of a line without a current point, and [closePath] can
    store [undefined] as a target; both are [None]. *)
Record Line := mkLine { start : option Point; end_ : option Point }.

(** Modelled from the spec: [Point.distance], of which [src/] has only the
    import; "distance from a single defined center point", the Euclidean
    distance. *)
Definition distance (p q : Point) : number :=
  PrimFloat.sqrt (Math_pow2 (x q - x p) + Math_pow2 (y q - y p))%float.

(** [lerp] and [clamp], as at the end of [context.ts] (the gradients import
    them from [util]). *)
Definition lerp (a b t : number) : number := (a + (b - a) * t)%float.

Definition clamp (value min max : number) : number :=
  if (value <? min)%float then min
  else if (max <? value)%float then max
  else value.

End Geom.

(** ** Gradients *)

Module Gradient.
Import JS uint32 Geom.

Record ColorStop := mkStop { t : number; color : Z }.

(** [class LinearGradient extends CanvasGradient] and
    [class RadialGradient extends CanvasGradient]: the stops of the base
    class and the points of the subclass. *)
Record LinearGradient := mkLinear {
  linear_stops : list ColorStop;
  linear_start : Point;
  linear_end : Point;
}.

Record RadialGradient := mkRadial {
  radial_stops : list ColorStop;
  radial_start : Point;
}.

Inductive CanvasGradient :=
| Linear (g : LinearGradient)
| Radial (g : RadialGradient).

(** [_lerpStops]: reading [.color] of a stop that is not there throws. *)
Definition _lerpStops (stops : list ColorStop) (t : number) : outcome Z :=
  match stops !! 0%nat, stops !! 1%nat with
  | Some s0, Some s1 =>
      let first := (fun b => (of_Z b / 255)%float) <$> getBytesBigEndian (color s0) in
      let second := (fun b => (of_Z b / 255)%float) <$> getBytesBigEndian (color s1) in
      let fc := (fun c => (c * 255)%float) <$>
                  imap (fun i f => lerp f (second !!! i) t) first in
      Ret (fromBytesBigEndian (trunc (fc !!! 0%nat)) (trunc (fc !!! 1%nat))
             (trunc (fc !!! 2%nat)) 255)
  | _, _ => Throw TypeError
  end.

(** [RadialGradient.colorAt]. *)
Definition RadialGradient_colorAt (g : RadialGradient) (x y : number)
    : outcome Z :=
  let pc := mkPoint x y in
  let dist := distance pc (radial_start g) in
  let t := clamp (dist / 10)%float 0%float 1%float in
  _lerpStops (radial_stops g) t.

(** A channel of two stops interpolated in the range 0 to 1 and converted
    back: [k] is the shift that selects the channel. *)
Definition lerp_channel (k : Z) (c0 c1 : Z) (t : number) : Z :=
  trunc (lerp (unit_of_byte (Z.land (Z.shiftr c0 k) 255))
              (unit_of_byte (Z.land (Z.shiftr c1 k) 255)) t * 255).

(** The parameter of a radial gradient at a point. *)
Definition radial_t (start : Point) (x y : number) : number :=
  clamp (distance (mkPoint x y) start / 10)%float 0%float 1%float.

(** The colour with every channel of the first two stops interpolated,
    alpha included. *)
Definition lerp_all_channels (c0 c1 : Z) (t : number) : Z :=
  fromBytesBigEndian (lerp_channel 24 c0 c1 t) (lerp_channel 16 c0 c1 t)
    (lerp_channel 8 c0 c1 t) (lerp_channel 0 c0 c1 t).

End Gradient.

(** ** Paths and their flattening *)

Module Path.
Import JS Geom.

(** [PATH_COMMAND] with its operands.  The target of a [LINE] is optional:
    [closePath] stores [this.pathstart], which may be [undefined]. *)
Inductive PathCmd :=
| MOVE (pt : Point)
| LINE (pt : option Point)
| QUADRATIC_CURVE (cp1 pt : Point)
| BEZIER_CURVE (cp1 cp2 pt : Point).

Definition IPointCurve : Type := Point * Point * Point * Point.

(** [t += 0.1]: the binary64 value nearest to one tenth. *)
Definition step : number := 0x1.999999999999ap-4%float.

Definition calcQuadraticAtT (p : option Point * Point * Point) (t : number)
    : outcome Point :=
  let '(p0, p1, p2) := p in
  match p0 with
  | None => Throw TypeError
  | Some p0 =>
      Ret (mkPoint
        ((1 - t) * (1 - t) * x p0 + 2 * (1 - t) * t * x p1 + t * t * x p2)%float
        ((1 - t) * (1 - t) * y p0 + 2 * (1 - t) * t * y p1 + t * t * y p2)%float)
  end.

Definition midpoint (p1 p2 : Point) (t : number) : Point :=
  mkPoint ((x p2 - x p1) * t + x p1)%float ((y p2 - y p1) * t + y p1)%float.

Definition splitCurveAtT (p : IPointCurve) (t : number)
    : IPointCurve * IPointCurve :=
  let '(p1, p2, p3, p4) := p in
  let p12 := midpoint p1 p2 t in
  let p23 := midpoint p2 p3 t in
  let p34 := midpoint p4 p3 t in
  let p123 := midpoint p12 p23 t in
  let p234 := midpoint p23 p34 t in
  let p1234 := mkPoint ((x p234 - x p123) * t + x p123)%float
                       ((y p234 - y p123) * t + y p123)%float in
  ((p1, p12, p123, p1234), (p1234, p234, p34, p4)).

Definition flatness (curve : IPointCurve) : number :=
  let '(pointA, controlPointA, controlPointB, pointB) := curve in
  let ux := Math_pow2 (3 * x controlPointA - 2 * x pointA - x pointB)%float in
  let uy := Math_pow2 (3 * y controlPointA - 2 * y pointA - y pointB)%float in
  let vx := Math_pow2 (3 * x controlPointB - 2 * x pointB - x pointA)%float in
  let vy := Math_pow2 (3 * y controlPointB - 2 * y pointB - y pointA)%float in
  let ux := if (ux <? vx)%float then vx else ux in
  let uy := if (uy <? vy)%float then vy else uy in
  (ux + uy)%float.

(** [bezierToLines]: the inner [recurse], one unit of fuel per call. *)
Fixpoint recurse (fuel : nat) (THRESHOLD : number) (curve : IPointCurve)
    : outcome (list Point) :=
  match fuel with
  | O => OutOfFuel
  | S fuel =>
      if (flatness curve <? THRESHOLD)%float
      then Ret [curve.1.1.1; curve.2]
      else
        let split := splitCurveAtT curve 0.5%float in
        l ← recurse fuel THRESHOLD split.1;
        r ← recurse fuel THRESHOLD split.2;
        Ret (l ++ r)
  end.

Definition bezierToLines (fuel : nat) (curve : IPointCurve)
    (THRESHOLD : number) : outcome (list Point) :=
  recurse fuel THRESHOLD curve.

(** The loop [for (let t = 0; t < 1; t += 0.1)] of [pathToLines], from the
    test of its condition on. *)
Fixpoint quadratic_loop (fuel : nat) (pts : option Point * Point * Point)
    (t : number) (lines : list Line) (curr : option Point)
    : outcome (list Line * option Point) :=
  match fuel with
  | O => OutOfFuel
  | S fuel =>
      if (t <? 1)%float then
        pt ← calcQuadraticAtT pts t;
        quadratic_loop fuel pts (t + step)%float
          (lines ++ [mkLine curr (Some pt)]) (Some pt)
      else Ret (lines, curr)
  end.

(** [pts.forEach(pt => { lines.push(new Line(curr, pt)); curr = pt })]. *)
Definition push_points (st : list Line * option Point) (pts : list Point)
    : list Line * option Point :=
  foldl (fun st pt => (st.1 ++ [mkLine st.2 (Some pt)], Some pt)) st pts.

(** One round of the [forEach] of [pathToLines]. *)
Definition pathToLines_cmd (fuel : nat) (st : list Line * option Point)
    (cmd : PathCmd) : outcome (list Line * option Point) :=
  let '(lines, curr) := st in
  match cmd with
  | MOVE pt => Ret (lines, Some pt)
  | LINE pt => Ret (lines ++ [mkLine curr pt], pt)
  | QUADRATIC_CURVE cp1 pt =>
      quadratic_loop fuel (curr, cp1, pt) 0%float lines curr
  | BEZIER_CURVE cp1 cp2 pt =>
      match curr with
      | None => Throw TypeError         (* [flatness] reads [pointA.x] *)
      | Some c =>
          pts ← bezierToLines fuel (c, cp1, cp2, pt) 10%float;
          Ret (push_points (lines, curr) pts)
      end
  end.

Fixpoint pathToLines_from (fuel : nat) (st : list Line * option Point)
    (path : list PathCmd) : outcome (list Line) :=
  match path with
  | [] => Ret st.1
  | cmd :: path =>
      st ← pathToLines_cmd fuel st cmd;
      pathToLines_from fuel st path
  end.

Definition pathToLines (fuel : nat) (path : list PathCmd) : outcome (list Line) :=
  pathToLines_from fuel ([], None) path.

(** [xlist.sort((a, b) => a - b)]: an insertion sort by the sign of the
    difference.  The engine's algorithm is not specified; the results below
    use only that sorting permutes. *)
Fixpoint sort_insert (a : number) (l : list number) : list number :=
  match l with
  | [] => [a]
  | b :: l' => if (0 <? a - b)%float then b :: sort_insert a l' else a :: l
  end.

Definition sort (l : list number) : list number := foldr sort_insert [] l.

(** The loop of [calcSortedIntersections]: reading [.y] of a missing end
    point throws. *)
Fixpoint intersections_loop (lines : list Line) (y : number)
    (xlist : list number) : outcome (list number) :=
  match lines with
  | [] => Ret xlist
  | l :: lines =>
      match start l, end_ l with
      | Some A, Some B =>
          if ((Geom.y A <? y) && (y <=? Geom.y B)
              || (Geom.y B <? y) && (y <=? Geom.y A))%float
          then
            let xval := (x A + (y - Geom.y A) / (Geom.y B - Geom.y A) * (x B - x A))%float in
            intersections_loop lines y (xlist ++ [xval])
          else intersections_loop lines y xlist
      | _, _ => Throw TypeError
      end
  end.

Definition calcSortedIntersections (lines : list Line) (y : number)
    : outcome (list number) :=
  sort <$> intersections_loop lines y [].

(** *** Reference points for the flattening results *)

(** The quadratic Bezier formula at [t]. *)
Definition quadratic_point (p0 p1 p2 : Point) (t : number) : Point :=
  mkPoint
    ((1 - t) * (1 - t) * x p0 + 2 * (1 - t) * t * x p1 + t * t * x p2)%float
    ((1 - t) * (1 - t) * y p0 + 2 * (1 - t) * t * y p1 + t * t * y p2)%float.

(** The values [t], [t + 0.1], ... of [n] rounds, and the value after them. *)
Fixpoint ts_from (n : nat) (t : number) : list number :=
  match n with
  | O => []
  | S n => t :: ts_from n (t + step)%float
  end.

Fixpoint t_after (n : nat) (t : number) : number :=
  match n with
  | O => t
  | S n => t_after n (t + step)%float
  end.

Definition quadratic_ts : list number := ts_from 11 0%float.

(** The curve from (2^54, 0) to (2^54 + 4, 0) with each control point on its
    end point.  The two abscissas are neighbouring binary64 values. *)
Definition stuck_curve : IPointCurve :=
  (mkPoint 0x1p+54 0, mkPoint 0x1p+54 0,
   mkPoint 0x1.0000000000001p+54 0, mkPoint 0x1.0000000000001p+54 0).

End Path.

Import JS uint32 Geom Path.

(** ** Sample data: matrices, a colour parser, a clip boundary *)

(** Affine maps [(x, y) -> (a x + c y + e, b x + d y + f)] with the canvas
    convention for [translate] and [scale]; the programs below rotate by 0
    only, which leaves a matrix as it is. *)
Record Affine := mkAffine {
  m_a : number; m_b : number; m_c : number;
  m_d : number; m_e : number; m_f : number;
}.

Definition affine_identity : Affine := mkAffine 1 0 0 1 0 0.

Definition affine_translate (dx dy : number) (m : Affine) : Affine :=
  mkAffine (m_a m) (m_b m) (m_c m) (m_d m)
    (m_a m * dx + m_c m * dy + m_e m)%float
    (m_b m * dx + m_d m * dy + m_f m)%float.

Definition affine_scale (sx sy : number) (m : Affine) : Affine :=
  mkAffine (m_a m * sx)%float (m_b m * sx)%float
    (m_c m * sy)%float (m_d m * sy)%float (m_e m) (m_f m).

Definition affine_rotate_0 (angle : number) (m : Affine) : Affine := m.

Definition affine_transformPoint (m : Affine) (pt : Point) : Point :=
  mkPoint (m_a m * x pt + m_c m * y pt + m_e m)%float
          (m_b m * x pt + m_d m * y pt + m_f m)%float.

(** A parser that knows two colour names. *)
Definition two_colors (s : string) : option Z :=
  if String.eqb s "red" then Some 0xFF0000FF
  else if String.eqb s "transparent" then Some 0
  else None.

(** A triangle as a clip boundary. *)
Definition triangle : list (Point * Point) :=
  [ (mkPoint 0 0, mkPoint 10 0); (mkPoint 10 0, mkPoint 5 10);
    (mkPoint 5 10, mkPoint 0 0) ].

(** ** The drawing surface *)

Section Surface.

(** [context.ts] imports [Transform] from [./transform] and
    [colorStringToUint32] from [./util]; neither file is among the sources
    embedded here.  The matrix arithmetic and the colour parser are left
    abstract; the stack of saved matrices is modelled from the spec below. *)
Variable Matrix : Type.
Variable m_identity : Matrix.
Variable m_translate : number -> number -> Matrix -> Matrix.
Variable m_rotate : number -> Matrix -> Matrix.
Variable m_scale : number -> number -> Matrix -> Matrix.
Variable m_transformPoint : Matrix -> Point -> Point.
(** [None]: the parser throws. *)
Variable colorStringToUint32 : string -> option Z.

(** Modelled from the spec: the class [Transform].  "2D matrix + stack of
    saved matrices ([save]/[restore]), LIFO; [restore] on empty stack is a
    no-op"; "[save()] (push copy of current matrix), [restore()] (pop if
    non-empty, else no-op)"; "[transformPoint] is pure". *)
Record Transform := mkTransform {
  matrix : Matrix;
  saved : list Matrix;
}.

Definition Transform_new : Transform := mkTransform m_identity [].

Definition Transform_save (t : Transform) : Transform :=
  mkTransform (matrix t) (matrix t :: saved t).

Definition Transform_restore (t : Transform) : Transform :=
  match saved t with
  | [] => t
  | m :: rest => mkTransform m rest
  end.

Definition Transform_translate (dx dy : number) (t : Transform) : Transform :=
  mkTransform (m_translate dx dy (matrix t)) (saved t).

Definition Transform_rotate (angle : number) (t : Transform) : Transform :=
  mkTransform (m_rotate angle (matrix t)) (saved t).

Definition Transform_scale (sx sy : number) (t : Transform) : Transform :=
  mkTransform (m_scale sx sy (matrix t)) (saved t).

Definition transformPoint (t : Transform) (pt : Point) : Point :=
  m_transformPoint (matrix t) pt.

(** [_fillColor: CanvasGradient | number]. *)
Inductive FillColor :=
| Color (rgba : Z)
| Grad (g : Gradient.CanvasGradient).

(** The argument of the [fillStyle] setter: [string | CanvasGradient]. *)
Inductive StyleValue :=
| StyleString (s : string)
| StyleGradient (g : Gradient.CanvasGradient).

Record IFont := mkFont { family : string; size : number }.

(** Modelled from the spec: [NAMED_COLORS.black], opaque black as
    [0xRRGGBBAA]. *)
Definition NAMED_COLORS_black : Z := 0x000000FF.

(** The fields of [class Context].  [path], [_clip] and [pathstart] have no
    initialiser: they are [undefined] ([None]) until first assigned. *)
Record Context := mkContext {
  bitmap : Bitmap.Bitmap;
  _fillColor : FillColor;
  _strokeColor : Z;
  _lineWidth : number;
  _globalAlpha : number;
  transform : Transform;
  _font : IFont;
  textAlign : string;
  textBaseline : string;
  imageSmoothingEnabled : bool;
  _fillStyle_text : string;
  _strokeStyle_text : string;
  path : option (list PathCmd);
  _clip : option (list Line);
  pathstart : option Point;
}.

(** [new Context(bitmap)]. *)
Definition Context_new (b : Bitmap.Bitmap) : Context :=
  {| bitmap := b;
     _fillColor := Color NAMED_COLORS_black;
     _strokeColor := NAMED_COLORS_black;
     _lineWidth := 1%float;
     _globalAlpha := 1%float;
     transform := Transform_new;
     _font := mkFont "invalid" 12%float;
     textAlign := "start";
     textBaseline := "alphabetic";
     imageSmoothingEnabled := true;
     _fillStyle_text := "";
     _strokeStyle_text := "";
     path := None;
     _clip := None;
     pathstart := None |}.

(** Assignments to single fields. *)
Definition with_fillColor (v : FillColor) (c : Context) : Context :=
  mkContext (bitmap c) v (_strokeColor c) (_lineWidth c) (_globalAlpha c)
    (transform c) (_font c) (textAlign c) (textBaseline c)
    (imageSmoothingEnabled c) (_fillStyle_text c) (_strokeStyle_text c)
    (path c) (_clip c) (pathstart c).


Definition with_transform (v : Transform) (c : Context) : Context :=
  mkContext (bitmap c) (_fillColor c) (_strokeColor c) (_lineWidth c)
    (_globalAlpha c) v (_font c) (textAlign c) (textBaseline c)
    (imageSmoothingEnabled c) (_fillStyle_text c) (_strokeStyle_text c)
    (path c) (_clip c) (pathstart c).

Definition with_fillStyle_text (v : string) (c : Context) : Context :=
  mkContext (bitmap c) (_fillColor c) (_strokeColor c) (_lineWidth c)
    (_globalAlpha c) (transform c) (_font c) (textAlign c) (textBaseline c)
    (imageSmoothingEnabled c) v (_strokeStyle_text c)
    (path c) (_clip c) (pathstart c).

Definition with_path (v : option (list PathCmd)) (c : Context) : Context :=
  mkContext (bitmap c) (_fillColor c) (_strokeColor c) (_lineWidth c)
    (_globalAlpha c) (transform c) (_font c) (textAlign c) (textBaseline c)
    (imageSmoothingEnabled c) (_fillStyle_text c) (_strokeStyle_text c)
    v (_clip c) (pathstart c).

Definition with_clip (v : option (list Line)) (c : Context) : Context :=
  mkContext (bitmap c) (_fillColor c) (_strokeColor c) (_lineWidth c)
    (_globalAlpha c) (transform c) (_font c) (textAlign c) (textBaseline c)
    (imageSmoothingEnabled c) (_fillStyle_text c) (_strokeStyle_text c)
    (path c) v (pathstart c).

Definition with_pathstart (v : option Point) (c : Context) : Context :=
  mkContext (bitmap c) (_fillColor c) (_strokeColor c) (_lineWidth c)
    (_globalAlpha c) (transform c) (_font c) (textAlign c) (textBaseline c)
    (imageSmoothingEnabled c) (_fillStyle_text c) (_strokeStyle_text c)
    (path c) (_clip c) v.

(** A method is a state transformer: it leaves the surface as it was when
    the method returned or threw, together with that outcome. *)
Definition method (A : Type) : Type := Context -> Context * outcome A.

(** [this.path.push(cmd)]. *)
Definition path_push (cmd : PathCmd) : method () := fun c =>
  match path c with
  | None => (c, Throw TypeError)
  | Some p => (with_path (Some (p ++ [cmd])) c, Ret ())
  end.

Definition get_fillStyle (c : Context) : string := _fillStyle_text c.

Definition set_fillStyle (val : StyleValue) : method () := fun c =>
  match val with
  | StyleGradient g => (with_fillColor (Grad g) c, Ret ())
  | StyleString s =>
      match colorStringToUint32 s with
      | None => (c, Throw ColorParseError)
      | Some rgba =>
          (with_fillStyle_text s (with_fillColor (Color rgba) c), Ret ())
      end
  end.


Definition save : method () := fun c =>
  (with_transform (Transform_save (transform c)) c, Ret ()).

Definition restore : method () := fun c =>
  (with_transform (Transform_restore (transform c)) c, Ret ()).

Definition translate (x y : number) : method () := fun c =>
  (with_transform (Transform_translate x y (transform c)) c, Ret ()).

Definition rotate (angle : number) : method () := fun c =>
  (with_transform (Transform_rotate angle (transform c)) c, Ret ()).

Definition scale (sx sy : number) : method () := fun c =>
  (with_transform (Transform_scale sx sy (transform c)) c, Ret ()).

Definition beginPath : method () := fun c => (with_path (Some []) c, Ret ()).

Definition _moveTo (pt : Point) : method () := fun c =>
  let pt := transformPoint (transform c) pt in
  path_push (MOVE pt) (with_pathstart (Some pt) c).

Definition moveTo (x y : number) : method () := _moveTo (mkPoint x y).

Definition _lineTo (pt : Point) : method () := fun c =>
  path_push (LINE (Some (transformPoint (transform c) pt))) c.

Definition lineTo (x y : number) : method () := _lineTo (mkPoint x y).

Definition quadraticCurveTo (cp1x cp1y x y : number) : method () := fun c =>
  let cp1 := transformPoint (transform c) (mkPoint cp1x cp1y) in
  let pt := transformPoint (transform c) (mkPoint x y) in
  path_push (QUADRATIC_CURVE cp1 pt) c.

Definition _bezierCurveTo (cp1 cp2 pt : Point) : method () := fun c =>
  let cp1 := transformPoint (transform c) cp1 in
  let cp2 := transformPoint (transform c) cp2 in
  let pt := transformPoint (transform c) pt in
  path_push (BEZIER_CURVE cp1 cp2 pt) c.

Definition bezierCurveTo (cp1x cp1y cp2x cp2y x y : number) : method () :=
  _bezierCurveTo (mkPoint cp1x cp1y) (mkPoint cp2x cp2y) (mkPoint x y).

Definition closePath : method () := fun c =>
  path_push (LINE (pathstart c)) c.

(** [clip]: [pathToLines(undefined)] throws at [path.forEach]. *)
Definition clip (fuel : nat) : method () := fun c =>
  match path c with
  | None => (c, Throw TypeError)
  | Some p =>
      match pathToLines fuel p with
      | Ret lines => (with_clip (Some lines) c, Ret ())
      | Throw e => (c, Throw e)
      | OutOfFuel => (c, OutOfFuel)
      end
  end.

(** The inner [compit] of [composite]. *)
Definition compit (ca cb aa ab : number) : number :=
  ((ca * aa + cb * ab * (1 - aa)) / (aa + ab * (1 - aa)))%float.

Definition composite (c : Context) (i j : number) (old_pixel new_pixel : Z)
    : Z :=
  let old_rgba := getBytesBigEndian old_pixel in
  let new_rgba := getBytesBigEndian new_pixel in
  let A := (fun b => (of_Z b / 255)%float) <$> new_rgba in
  let B := (fun b => (of_Z b / 255)%float) <$> old_rgba in
  let A := <[3%nat := (A !!! 3%nat * _globalAlpha c)%float]> A in
  let C := imap (fun i comp =>
             compit (A !!! i) (B !!! i) (A !!! 3%nat) (B !!! 3%nat)) A in
  let Cf := (fun c => (c * 255)%float) <$> C in
  fromBytesBigEndian (trunc (Cf !!! 0%nat)) (trunc (Cf !!! 1%nat))
    (trunc (Cf !!! 2%nat)) (trunc (Cf !!! 3%nat)).

(** The alpha of the source after [A[3] = A[3] * this._globalAlpha]. *)
Definition source_alpha (c : Context) (new_pixel : Z) : number :=
  (unit_of_byte (Z.land new_pixel 255) * _globalAlpha c)%float.

Definition pixelInsideClip (c : Context) (x y : number) : outcome bool :=
  match _clip c with
  | None => Ret true
  | Some clip =>
      ints ← calcSortedIntersections clip y;
      let left := filter (fun inter => (inter <? x)%float = true) ints in
      Ret (negb (Nat.eqb (length left `mod` 2) 0))
  end.

(** The pixel painter behind every fill: clip test, then compositor. *)
Definition fillPixelWithColor (x y : number) (col : Z) : method () := fun c =>
  match pixelInsideClip c x y with
  | Ret false => (c, Ret ())
  | Ret true =>
      let new_pixel := col in
      let old_pixel := Bitmap.getPixelRGBA (bitmap c) x y in
      let final_pixel := composite c x y old_pixel new_pixel in
      (mkContext (Bitmap.setPixelRGBA (bitmap c) x y final_pixel)
         (_fillColor c) (_strokeColor c) (_lineWidth c) (_globalAlpha c)
         (transform c) (_font c) (textAlign c) (textBaseline c)
         (imageSmoothingEnabled c) (_fillStyle_text c) (_strokeStyle_text c)
         (path c) (_clip c) (pathstart c), Ret ())
  | Throw e => (c, Throw e)
  | OutOfFuel => (c, OutOfFuel)
  end.

(** A call of one of the path-building or transform methods, and a program
    of such calls: the statements run in order until one throws. *)
Inductive Call :=
| CMoveTo (x y : number)
| CLineTo (x y : number)
| CQuadraticCurveTo (cp1x cp1y x y : number)
| CBezierCurveTo (cp1x cp1y cp2x cp2y x y : number)
| CTranslate (x y : number)
| CRotate (angle : number)
| CScale (sx sy : number)
| CSave
| CRestore.

Definition call (k : Call) : method () :=
  match k with
  | CMoveTo x y => moveTo x y
  | CLineTo x y => lineTo x y
  | CQuadraticCurveTo cp1x cp1y x y => quadraticCurveTo cp1x cp1y x y
  | CBezierCurveTo cp1x cp1y cp2x cp2y x y =>
      bezierCurveTo cp1x cp1y cp2x cp2y x y
  | CTranslate x y => translate x y
  | CRotate angle => rotate angle
  | CScale sx sy => scale sx sy
  | CSave => save
  | CRestore => restore
  end.

Fixpoint run (calls : list Call) (c : Context) : Context * outcome () :=
  match calls with
  | [] => (c, Ret ())
  | k :: calls =>
      match call k c with
      | (c', Ret _) => run calls c'
      | (c', Throw e) => (c', Throw e)
      | (c', OutOfFuel) => (c', OutOfFuel)
      end
  end.

Definition is_transform_call (k : Call) : bool :=
  match k with
  | CTranslate _ _ | CRotate _ | CScale _ _ | CSave | CRestore => true
  | _ => false
  end.

Definition is_save_or_restore (k : Call) : bool :=
  match k with
  | CSave | CRestore => true
  | _ => false
  end.

(** What the transform does to a later call's points: the transform after a
    call, and the path commands a program appends when each point is mapped
    through the transform current at its own call. *)
Definition transform_after (t : Transform) (k : Call) : Transform :=
  match k with
  | CTranslate x y => Transform_translate x y t
  | CRotate angle => Transform_rotate angle t
  | CScale sx sy => Transform_scale sx sy t
  | CSave => Transform_save t
  | CRestore => Transform_restore t
  | _ => t
  end.

Definition baked_cmd (t : Transform) (k : Call) : list PathCmd :=
  match k with
  | CMoveTo x y => [MOVE (transformPoint t (mkPoint x y))]
  | CLineTo x y => [LINE (Some (transformPoint t (mkPoint x y)))]
  | CQuadraticCurveTo cp1x cp1y x y =>
      [QUADRATIC_CURVE (transformPoint t (mkPoint cp1x cp1y))
         (transformPoint t (mkPoint x y))]
  | CBezierCurveTo cp1x cp1y cp2x cp2y x y =>
      [BEZIER_CURVE (transformPoint t (mkPoint cp1x cp1y))
         (transformPoint t (mkPoint cp2x cp2y))
         (transformPoint t (mkPoint x y))]
  | _ => []
  end.

Fixpoint baked (t : Transform) (calls : list Call) : list PathCmd :=
  match calls with
  | [] => []
  | k :: calls => baked_cmd t k ++ baked (transform_after t k) calls
  end.

(** Everything a surface holds except its transform. *)
Definition same_but_transform (c c' : Context) : Prop :=
  bitmap c' = bitmap c /\ _fillColor c' = _fillColor c
  /\ _strokeColor c' = _strokeColor c /\ _lineWidth c' = _lineWidth c
  /\ _globalAlpha c' = _globalAlpha c /\ _font c' = _font c
  /\ textAlign c' = textAlign c /\ textBaseline c' = textBaseline c
  /\ imageSmoothingEnabled c' = imageSmoothingEnabled c
  /\ _fillStyle_text c' = _fillStyle_text c
  /\ _strokeStyle_text c' = _strokeStyle_text c
  /\ path c' = path c /\ _clip c' = _clip c /\ pathstart c' = pathstart c.

(** The clip test in the words of the spec: a segment crosses the scanline
    when exactly one end point has its y at or above it and the other below;
    the crossing x is interpolated; a point is inside when the number of
    crossings strictly to its left is odd. *)
Definition crosses (y0 : number) (seg : Point * Point) : bool :=
  let '(A, B) := seg in
  ((Geom.y A <? y0) && (y0 <=? Geom.y B)
   || (Geom.y B <? y0) && (y0 <=? Geom.y A))%float.

Definition crossing_x (y0 : number) (seg : Point * Point) : number :=
  let '(A, B) := seg in
  (Geom.x A + (y0 - Geom.y A) / (Geom.y B - Geom.y A) * (Geom.x B - Geom.x A))%float.

Definition crossings (segs : list (Point * Point)) (y0 : number) : list number :=
  crossing_x y0 <$> filter (fun seg => crosses y0 seg = true) segs.

Definition crossings_left_of (segs : list (Point * Point)) (x0 y0 : number) : nat :=
  length (filter (fun xi => (xi <? x0)%float = true) (crossings segs y0)).

Definition segment (seg : Point * Point) : Line :=
  mkLine (Some seg.1) (Some seg.2).

(** ** Bytes and their numbers *)

Lemma all_bytes_complete (b : Z) : is_byte b -> In b all_bytes.
Proof.
  intros [Hlo Hhi]. unfold all_bytes. apply in_map_iff.
  exists (Z.to_nat b). split; [lia|]. apply in_seq. lia.
Qed.

Lemma forall_bytes (P : Z -> bool) :
  forallb P all_bytes = true -> forall b, is_byte b -> P b = true.
Proof.
  intros H b Hb. rewrite forallb_forall in H. apply H, all_bytes_complete, Hb.
Qed.

Lemma forall_bytes2 (P : Z -> Z -> bool) :
  forallb (fun a => forallb (P a) all_bytes) all_bytes = true ->
  forall a b, is_byte a -> is_byte b -> P a b = true.
Proof.
  intros H a b Ha Hb.
  apply (forall_bytes (P a)); [|exact Hb].
  apply (forall_bytes (fun a => forallb (P a) all_bytes)); [exact H|exact Ha].
Qed.

Lemma land_255_byte (c : Z) : is_byte (Z.land c 255).
Proof.
  unfold is_byte. change 255 with (Z.ones 8).
  rewrite Z.land_ones by lia. apply Z.mod_pos_bound. lia.
Qed.

Lemma feq_eq (a b : number) : feq a b = true -> a = b.
Proof. apply FloatAxioms.Leibniz.eqb_spec. Qed.

Lemma byte_bit (c k m : Z) :
  0 <= k ->
  Z.testbit (Z.land (Z.shiftr c k) 255) m
  = (0 <=? m) && (m <? 8) && Z.testbit c (m + k).
Proof.
  intros Hk. destruct (Z.leb_spec 0 m) as [Hm|Hm]; cbn [andb].
  - change 255 with (Z.ones 8).
    rewrite Z.land_spec, Z.shiftr_spec by lia.
    destruct (Z.ltb_spec m 8).
    + rewrite Z.ones_spec_low by lia. cbn. apply andb_true_r.
    + rewrite Z.ones_spec_high by lia. apply andb_false_r.
  - apply Z.testbit_neg_r. lia.
Qed.

Lemma uint32_high_bit (c n : Z) : is_uint32 c -> 32 <= n -> Z.testbit c n = false.
Proof.
  intros Hc Hn. destruct (Z.eq_dec c 0) as [->|Hnz]; [apply Z.bits_0|].
  apply Z.bits_above_log2; [apply Hc|].
  apply Z.log2_lt_pow2; [unfold is_uint32 in Hc; lia|].
  assert (2 ^ 32 <= 2 ^ n) by (apply Z.pow_le_mono_r; lia).
  unfold is_uint32 in Hc. lia.
Qed.

(** The packing of the four bytes of a colour gives the colour back. *)
Lemma fromBytes_getBytes (c : Z) :
  is_uint32 c ->
  fromBytesBigEndian (Z.land (Z.shiftr c 24) 255) (Z.land (Z.shiftr c 16) 255)
    (Z.land (Z.shiftr c 8) 255) (Z.land c 255) = c.
Proof.
  intros Hc. unfold fromBytesBigEndian.
  rewrite <- (Z.shiftr_0_r c) at 4.
  match goal with |- ?X mod _ = _ => assert (X = c) as -> end;
    [|apply Z.mod_small, Hc].
  apply Z.bits_inj'. intros n Hn.
  rewrite !Z.lor_spec, !Z.shiftl_spec, !byte_bit by lia.
  replace (n - 24 + 24) with n by lia. replace (n - 16 + 16) with n by lia.
  replace (n - 8 + 8) with n by lia. replace (n + 0) with n by lia.
  destruct (Z.ltb_spec n 32) as [H32|H32].
  - destruct (Z.testbit c n); [|by rewrite !andb_false_r].
    rewrite !andb_true_r.
    destruct (Z.leb_spec 0 (n - 24)), (Z.ltb_spec (n - 24) 8),
      (Z.leb_spec 0 (n - 16)), (Z.ltb_spec (n - 16) 8),
      (Z.leb_spec 0 (n - 8)), (Z.ltb_spec (n - 8) 8),
      (Z.leb_spec 0 n), (Z.ltb_spec n 8); cbn; try reflexivity; lia.
  - rewrite (uint32_high_bit c n) by assumption. by rewrite !andb_false_r.
Qed.

(** ** The compositor on opaque and on transparent sources *)

Lemma composite_channels (c : Context) (i j : number) (old_pixel new_pixel : Z) :
  composite c i j old_pixel new_pixel =
  let aa := source_alpha c new_pixel in
  let ab := unit_of_byte (Z.land old_pixel 255) in
  fromBytesBigEndian
    (trunc (compit (unit_of_byte (Z.land (Z.shiftr new_pixel 24) 255))
              (unit_of_byte (Z.land (Z.shiftr old_pixel 24) 255)) aa ab * 255))
    (trunc (compit (unit_of_byte (Z.land (Z.shiftr new_pixel 16) 255))
              (unit_of_byte (Z.land (Z.shiftr old_pixel 16) 255)) aa ab * 255))
    (trunc (compit (unit_of_byte (Z.land (Z.shiftr new_pixel 8) 255))
              (unit_of_byte (Z.land (Z.shiftr old_pixel 8) 255)) aa ab * 255))
    (trunc (compit aa ab aa ab * 255)).
Proof. reflexivity. Qed.

Lemma dst_term_vanishes (b a : Z) :
  is_byte b -> is_byte a ->
  (unit_of_byte b * unit_of_byte a * (1 - 1))%float = 0%float.
Proof.
  intros Hb Ha. apply feq_eq.
  apply (forall_bytes2
           (fun b a => feq (unit_of_byte b * unit_of_byte a * (1 - 1)) 0));
    [vm_compute; reflexivity|assumption..].
Qed.

Lemma opaque_denominator (a : Z) :
  is_byte a -> (1 + unit_of_byte a * (1 - 1))%float = 1%float.
Proof.
  intros Ha. apply feq_eq.
  apply (forall_bytes (fun a => feq (1 + unit_of_byte a * (1 - 1)) 1));
    [vm_compute; reflexivity|assumption].
Qed.

Lemma byte_round_trip (r : Z) :
  is_byte r -> trunc ((unit_of_byte r * 1 + 0) / 1 * 255) = r.
Proof.
  intros Hr. apply Z.eqb_eq.
  apply (forall_bytes
           (fun r => trunc ((unit_of_byte r * 1 + 0) / 1 * 255) =? r));
    [vm_compute; reflexivity|assumption].
Qed.

Lemma opaque_channel (r b a : Z) :
  is_byte r -> is_byte b -> is_byte a ->
  trunc (compit (unit_of_byte r) (unit_of_byte b) 1 (unit_of_byte a) * 255) = r.
Proof.
  intros Hr Hb Ha. unfold compit.
  rewrite dst_term_vanishes, opaque_denominator by assumption.
  apply byte_round_trip, Hr.
Qed.

Lemma opaque_alpha (a : Z) :
  is_byte a ->
  trunc (compit 1 (unit_of_byte a) 1 (unit_of_byte a) * 255) = 255.
Proof.
  intros Ha. unfold compit.
  rewrite dst_term_vanishes, opaque_denominator by assumption.
  vm_compute. reflexivity.
Qed.

Lemma transparent_over_opaque_channel (r b : Z) :
  is_byte r -> is_byte b ->
  trunc (compit (unit_of_byte r) (unit_of_byte b) 0 (unit_of_byte 255) * 255) = b.
Proof.
  intros Hr Hb. apply Z.eqb_eq.
  apply (forall_bytes2
           (fun r b => trunc (compit (unit_of_byte r) (unit_of_byte b) 0
                                (unit_of_byte 255) * 255) =? b));
    [vm_compute; reflexivity|assumption..].
Qed.

Lemma transparent_over_transparent_channel (r b : Z) :
  is_byte r -> is_byte b ->
  trunc (compit (unit_of_byte r) (unit_of_byte b) 0 (unit_of_byte 0) * 255) = 0.
Proof.
  intros Hr Hb. apply Z.eqb_eq.
  apply (forall_bytes2
           (fun r b => trunc (compit (unit_of_byte r) (unit_of_byte b) 0
                                (unit_of_byte 0) * 255) =? 0));
    [vm_compute; reflexivity|assumption..].
Qed.

(** With the global alpha at its initial value 1, the scaled alpha of a
    source is 1 only for the alpha byte 255. *)
Lemma source_alpha_1_default (c : Context) (new_pixel : Z) :
  _globalAlpha c = 1%float ->
  source_alpha c new_pixel = 1%float -> Z.land new_pixel 255 = 255.
Proof.
  unfold source_alpha. intros -> Haa.
  pose proof (forall_bytes
    (fun a => implb (feq (unit_of_byte a * 1) 1) (a =? 255))) as Hall.
  specialize (Hall ltac:(vm_compute; reflexivity) _ (land_255_byte new_pixel)).
  cbv beta in Hall. rewrite Haa in Hall. apply Z.eqb_eq. exact Hall.
Qed.

(** C2, amended.  A source whose scaled alpha is 1 replaces the destination:
    the result has the source's red, green and blue and alpha 255, which is
    the source colour itself when its alpha byte is 255.  A source whose
    scaled alpha is 0 leaves a destination of alpha 255 as it is; over a
    destination of alpha 0 every channel is 0/0 and the result is 0. *)
Theorem composite_opaque_and_transparent
    (c : Context) (i j : number) (old_pixel new_pixel : Z) :
  is_uint32 old_pixel -> is_uint32 new_pixel ->
  (source_alpha c new_pixel = 1%float ->
     composite c i j old_pixel new_pixel
     = fromBytesBigEndian (Z.land (Z.shiftr new_pixel 24) 255)
         (Z.land (Z.shiftr new_pixel 16) 255)
         (Z.land (Z.shiftr new_pixel 8) 255) 255
     /\ (Z.land new_pixel 255 = 255 ->
         composite c i j old_pixel new_pixel = new_pixel))
  /\ (source_alpha c new_pixel = 0%float ->
      (Z.land old_pixel 255 = 255 ->
       composite c i j old_pixel new_pixel = old_pixel)
      /\ (Z.land old_pixel 255 = 0 ->
          composite c i j old_pixel new_pixel = 0)).
Proof.
  intros Hold Hnew. split.
  - intros Haa.
    assert (composite c i j old_pixel new_pixel
            = fromBytesBigEndian (Z.land (Z.shiftr new_pixel 24) 255)
                (Z.land (Z.shiftr new_pixel 16) 255)
                (Z.land (Z.shiftr new_pixel 8) 255) 255) as Hres.
    { rewrite composite_channels. cbv zeta. rewrite Haa.
      rewrite !opaque_channel, opaque_alpha by apply land_255_byte.
      reflexivity. }
    split; [exact Hres|].
    intros Ha. rewrite Hres.
    pose proof (fromBytes_getBytes new_pixel Hnew) as E.
    rewrite Ha in E. exact E.
  - intros Haa. split; intros Hab.
    + rewrite composite_channels. cbv zeta. rewrite Haa, Hab.
      rewrite !transparent_over_opaque_channel by apply land_255_byte.
      replace (trunc (compit 0 (unit_of_byte 255) 0 (unit_of_byte 255) * 255))
        with 255 by (vm_compute; reflexivity).
      pose proof (fromBytes_getBytes old_pixel Hold) as E.
      rewrite Hab in E. exact E.
    + rewrite composite_channels. cbv zeta. rewrite Haa, Hab.
      rewrite !transparent_over_transparent_channel by apply land_255_byte.
      vm_compute. reflexivity.
Qed.

(** ** Paths, transforms and styles *)

Lemma call_effect (k : Call) (c : Context) (p : list PathCmd) :
  path c = Some p ->
  exists c', call k c = (c', Ret ())
    /\ path c' = Some (p ++ baked_cmd (transform c) k)
    /\ transform c' = transform_after (transform c) k.
Proof.
  intros Hp.
  destruct k; cbn; unfold moveTo, _moveTo, lineTo, _lineTo, quadraticCurveTo,
    bezierCurveTo, _bezierCurveTo, translate, rotate, scale, save, restore,
    path_push; cbn; rewrite ?Hp; eexists; (split; [reflexivity|]); cbn;
    rewrite ?app_nil_r; auto.
Qed.

Lemma run_bakes (calls : list Call) (c : Context) (p : list PathCmd) :
  path c = Some p ->
  exists c', run calls c = (c', Ret ())
    /\ path c' = Some (p ++ baked (transform c) calls).
Proof.
  revert c p. induction calls as [|k calls IH]; intros c p Hp.
  - exists c. cbn. by rewrite app_nil_r.
  - destruct (call_effect k c p Hp) as (c1 & Hcall & Hp1 & Ht1).
    destruct (IH c1 _ Hp1) as (c' & Hrun & Hp').
    exists c'. cbn [run baked]. rewrite Hcall, Hrun.
    split; [reflexivity|]. by rewrite Hp', Ht1, app_assoc.
Qed.

Lemma baked_transform_calls (t : Transform) (calls : list Call) :
  forallb is_transform_call calls = true -> baked t calls = [].
Proof.
  revert t. induction calls as [|k calls IH]; intros t; [done|].
  cbn [forallb baked]. intros [Hk Hrest]%andb_prop. rewrite (IH _ Hrest).
  by destruct k.
Qed.

(** C3.  With a path begun, a program of path-building and transform calls
    returns, and it leaves the path it found followed by one command for each
    path-building call, whose points are those of the call mapped through
    the transform that was current at that call.  Whatever calls of
    translate, rotate, scale, save and restore come later, they return and
    leave every stored command as it was. *)
Theorem path_points_baked_at_insertion
    (calls later : list Call) (c : Context) (p : list PathCmd) :
  path c = Some p ->
  forallb is_transform_call later = true ->
  exists c1 c2,
    run calls c = (c1, Ret ())
    /\ path c1 = Some (p ++ baked (transform c) calls)
    /\ run later c1 = (c2, Ret ())
    /\ path c2 = path c1.
Proof.
  intros Hp Hlater.
  destruct (run_bakes calls c p Hp) as (c1 & Hrun1 & Hp1).
  destruct (run_bakes later c1 _ Hp1) as (c2 & Hrun2 & Hp2).
  exists c1, c2. repeat split; try assumption.
  by rewrite Hp2, Hp1, (baked_transform_calls _ _ Hlater), app_nil_r.
Qed.

Lemma closePath_appends (c : Context) (p : list PathCmd) :
  path c = Some p ->
  closePath c = (with_path (Some (p ++ [LINE (pathstart c)])) c, Ret ()).
Proof. intros Hp. unfold closePath, path_push. by rewrite Hp. Qed.

(** C7.  On a fresh surface, after [beginPath], no start point is set and
    [closePath] still stores a command: a [LINE] whose target is
    [undefined]. *)
Theorem closePath_without_start_point (b : Bitmap.Bitmap) :
  let c := (beginPath (Context_new b)).1 in
  pathstart c = None /\ path c = Some []
  /\ (closePath c).2 = Ret ()
  /\ path (closePath c).1 = Some [LINE None].
Proof. cbn. auto. Qed.

(** Before the first [beginPath] the path itself is [undefined], and
    [closePath] throws. *)
Lemma closePath_before_beginPath (b : Bitmap.Bitmap) :
  closePath (Context_new b) = (Context_new b, Throw TypeError).
Proof. reflexivity. Qed.

Lemma save_restore_effect (k : Call) (c : Context) :
  is_save_or_restore k = true ->
  exists c', call k c = (c', Ret ()) /\ same_but_transform c c'.
Proof.
  intros Hk. destruct k; try discriminate Hk; cbn; unfold save, restore;
    eexists; (split; [reflexivity|]); repeat split.
Qed.

Lemma same_but_transform_trans (c1 c2 c3 : Context) :
  same_but_transform c1 c2 -> same_but_transform c2 c3 ->
  same_but_transform c1 c3.
Proof.
  unfold same_but_transform. intros H12 H23.
  repeat match goal with H : _ /\ _ |- _ => destruct H end.
  repeat split; congruence.
Qed.

(** C9.  A program of [save] and [restore] calls returns and leaves every
    field of the surface other than the transform as it was; [restore] with
    no saved matrix leaves the surface as it was, transform included. *)
Theorem save_restore_only_transform (calls : list Call) (c : Context) :
  forallb is_save_or_restore calls = true ->
  (exists c', run calls c = (c', Ret ()) /\ same_but_transform c c')
  /\ (saved (transform c) = [] -> restore c = (c, Ret ())).
Proof.
  intros Hcalls. split.
  - revert c. induction calls as [|k calls IH]; intros c.
    + exists c. split; [reflexivity|]. repeat split.
    + apply andb_prop in Hcalls as [Hk Hrest].
      destruct (save_restore_effect k c Hk) as (c1 & Hcall & H1).
      destruct (IH Hrest c1) as (c' & Hrun & H2).
      exists c'. cbn [run]. rewrite Hcall, Hrun.
      split; [reflexivity|]. eapply same_but_transform_trans; eassumption.
  - intros Hempty. unfold restore, Transform_restore. rewrite Hempty.
    by destruct c.
Qed.

(** C10.  After [fillStyle = s] for a string [s] the parser accepts, the
    assignment of a gradient returns, makes the gradient the fill colour and
    leaves the text that [fillStyle] reads at [s]. *)
Theorem fillStyle_gradient_keeps_text
    (c c1 : Context) (s : string) (g : Gradient.CanvasGradient) :
  set_fillStyle (StyleString s) c = (c1, Ret ()) ->
  exists c2, set_fillStyle (StyleGradient g) c1 = (c2, Ret ())
    /\ _fillColor c2 = Grad g
    /\ get_fillStyle c2 = s.
Proof.
  unfold set_fillStyle. destruct (colorStringToUint32 s) as [rgba|]; [|done].
  intros [= <-]. eexists. split; [reflexivity|]. split; reflexivity.
Qed.

(** ** The clip test *)

Lemma sort_insert_perm (a : number) (l : list number) :
  sort_insert a l ≡ₚ a :: l.
Proof.
  induction l as [|b l IH]; cbn; [done|].
  destruct (0 <? a - b)%float; [|done].
  rewrite IH. apply Permutation_swap.
Qed.

Lemma sort_perm (l : list number) : sort l ≡ₚ l.
Proof.
  induction l as [|a l IH]; cbn; [done|].
  rewrite sort_insert_perm. by rewrite IH.
Qed.

Lemma intersections_loop_crossings
    (segs : list (Point * Point)) (y0 : number) (xlist : list number) :
  intersections_loop (segment <$> segs) y0 xlist
  = Ret (xlist ++ crossings segs y0).
Proof.
  revert xlist. induction segs as [|[A B] segs IH]; intros xlist.
  - cbn. by rewrite app_nil_r.
  - unfold crossings. rewrite filter_cons, fmap_cons.
    cbn [intersections_loop segment start end_ fst snd crosses].
    destruct ((Geom.y A <? y0) && (y0 <=? Geom.y B)
              || (Geom.y B <? y0) && (y0 <=? Geom.y A))%float eqn:Hc.
    + rewrite decide_True by done. rewrite IH, <- app_assoc. reflexivity.
    + rewrite decide_False by done. apply IH.
Qed.

Lemma odd_mod2 (n : nat) : negb (Nat.eqb (n `mod` 2) 0) = Nat.odd n.
Proof.
  rewrite <- Nat.negb_even. f_equal.
  destruct (Nat.even n) eqn:He.
  - apply Nat.eqb_eq. apply Nat.even_spec in He as [k ->].
    by rewrite Nat.mul_comm, Nat.Div0.mod_mul.
  - apply Nat.eqb_neq. intros Hm.
    assert (Nat.even n = true); [|congruence].
    apply Nat.even_spec. exists (n `div` 2)%nat.
    pose proof (Nat.div_mod_eq n 2). lia.
Qed.

(** C4.  With a clip boundary set, a point passes the clip test exactly when
    the number of crossings of the boundary with the horizontal line through
    the point that lie strictly to its left is odd; with no clip boundary
    every point passes. *)
Theorem pixelInsideClip_even_odd
    (c : Context) (segs : list (Point * Point)) (x0 y0 : number) :
  (_clip c = Some (segment <$> segs) ->
   pixelInsideClip c x0 y0 = Ret (Nat.odd (crossings_left_of segs x0 y0)))
  /\ (_clip c = None -> pixelInsideClip c x0 y0 = Ret true).
Proof.
  unfold pixelInsideClip. split; intros ->; [|reflexivity].
  unfold calcSortedIntersections.
  rewrite intersections_loop_crossings, app_nil_l.
  unfold fmap, outcome_fmap, mbind, outcome_bind. f_equal.
  rewrite odd_mod2. f_equal. unfold crossings_left_of.
  apply Permutation_length. apply filter_Permutation, sort_perm.
Qed.

(** ** The pixel buffer inside its bounds *)

Lemma byte_mod_256 (c : Z) : Z.land c 255 mod 256 = Z.land c 255.
Proof. apply Z.mod_small, land_255_byte. Qed.

Lemma length_set_byte (d : list Z) (i : option Z) (k v : Z) :
  length (Bitmap.set_byte d i k v) = length d.
Proof.
  unfold Bitmap.set_byte. destruct i as [i|]; [|done].
  case_bool_decide; [apply length_insert|done].
Qed.

Lemma get_byte_set_byte_eq (d : list Z) (i k v : Z) :
  0 <= i + k -> (Z.to_nat (i + k) < length d)%nat ->
  Bitmap.get_byte (Bitmap.set_byte d (Some i) k v) (Some i) k = Some (v mod 256).
Proof.
  intros Hlo Hhi. unfold Bitmap.get_byte, Bitmap.set_byte.
  rewrite !bool_decide_eq_true_2 by done.
  by apply list_lookup_insert_eq.
Qed.

Lemma get_byte_set_byte_ne (d : list Z) (i k v i' k' : Z) :
  i + k <> i' + k' ->
  Bitmap.get_byte (Bitmap.set_byte d (Some i) k v) (Some i') k'
  = Bitmap.get_byte d (Some i') k'.
Proof.
  intros Hne. unfold Bitmap.get_byte, Bitmap.set_byte.
  case_bool_decide; [|done]. case_bool_decide; [|done].
  apply list_lookup_insert_ne. lia.
Qed.

Lemma calculateIndex_in_bounds (b : Bitmap.Bitmap) (x y : number) (xi yi : Z) :
  Bitmap.in_bounds b x y xi yi ->
  Bitmap.calculateIndex b x y = Some ((Bitmap.width b * yi + xi) * 4).
Proof.
  intros (Hx & Hy & Hxi & Hyi). unfold Bitmap.calculateIndex.
  rewrite Hx, Hy. cbn [flt fge].
  rewrite !bool_decide_eq_false_2 by lia. reflexivity.
Qed.

Lemma in_bounds_index_range (b : Bitmap.Bitmap) (x y : number) (xi yi k : Z) :
  Bitmap.wf b -> Bitmap.in_bounds b x y xi yi -> 0 <= k < 4 ->
  0 <= (Bitmap.width b * yi + xi) * 4 + k
  /\ (Z.to_nat ((Bitmap.width b * yi + xi) * 4 + k) < length (Bitmap.data b))%nat.
Proof.
  intros (Hw & Hh & Hlen) (_ & _ & Hxi & Hyi) Hk. rewrite Hlen.
  assert (Bitmap.width b * yi + xi < Bitmap.width b * Bitmap.height b) by nia.
  split; [nia|]. apply Z2Nat.inj_lt; nia.
Qed.

(** X1.  The buffer keeps its width, its height and its length under every
    write, whatever the coordinates. *)
Theorem setPixelRGBA_keeps_shape (b : Bitmap.Bitmap) (x y : number) (rgba : Z) :
  Bitmap.width (Bitmap.setPixelRGBA b x y rgba) = Bitmap.width b
  /\ Bitmap.height (Bitmap.setPixelRGBA b x y rgba) = Bitmap.height b
  /\ length (Bitmap.data (Bitmap.setPixelRGBA b x y rgba))
     = length (Bitmap.data b)
  /\ (Bitmap.wf b -> Bitmap.wf (Bitmap.setPixelRGBA b x y rgba)).
Proof.
  assert (length (Bitmap.data (Bitmap.setPixelRGBA b x y rgba))
          = length (Bitmap.data b)) as Hlen.
  { unfold Bitmap.setPixelRGBA. cbn [Bitmap.data].
    by rewrite !length_set_byte. }
  split; [done|]. split; [done|]. split; [exact Hlen|].
  intros (Hw & Hh & Hwf). unfold Bitmap.wf. rewrite Hlen. done.
Qed.

Lemma getPixelRGBA_setPixelRGBA_same
    (b : Bitmap.Bitmap) (x y : number) (xi yi : Z) (rgba : Z) :
  Bitmap.wf b -> Bitmap.in_bounds b x y xi yi -> is_uint32 rgba ->
  Bitmap.getPixelRGBA (Bitmap.setPixelRGBA b x y rgba) x y = rgba.
Proof.
  intros Hwf Hin Hc.
  pose proof (in_bounds_index_range b x y xi yi 0 Hwf Hin ltac:(lia)) as [? ?].
  pose proof (in_bounds_index_range b x y xi yi 1 Hwf Hin ltac:(lia)) as [? ?].
  pose proof (in_bounds_index_range b x y xi yi 2 Hwf Hin ltac:(lia)) as [? ?].
  pose proof (in_bounds_index_range b x y xi yi 3 Hwf Hin ltac:(lia)) as [? ?].
  assert (Bitmap.in_bounds (Bitmap.setPixelRGBA b x y rgba) x y xi yi) as Hin'
    by exact Hin.
  unfold Bitmap.getPixelRGBA.
  rewrite (calculateIndex_in_bounds _ _ _ _ _ Hin').
  unfold Bitmap.setPixelRGBA.
  rewrite (calculateIndex_in_bounds _ _ _ _ _ Hin).
  cbn [Bitmap.data getBytesBigEndian lookup_total list_lookup_total].
  set (i := (Bitmap.width b * yi + xi) * 4) in *.
  rewrite (get_byte_set_byte_eq _ i 3) by (rewrite ?length_set_byte; done).
  rewrite (get_byte_set_byte_ne _ i 3 _ i 2) by lia.
  rewrite (get_byte_set_byte_eq _ i 2) by (rewrite ?length_set_byte; done).
  rewrite (get_byte_set_byte_ne _ i 3 _ i 1), (get_byte_set_byte_ne _ i 2 _ i 1) by lia.
  rewrite (get_byte_set_byte_eq _ i 1) by (rewrite ?length_set_byte; done).
  rewrite (get_byte_set_byte_ne _ i 3 _ i 0), (get_byte_set_byte_ne _ i 2 _ i 0),
    (get_byte_set_byte_ne _ i 1 _ i 0) by lia.
  rewrite (get_byte_set_byte_eq _ i 0) by done.
  cbn [Bitmap.undefined_as_0 default]. rewrite !byte_mod_256.
  apply fromBytes_getBytes, Hc.
Qed.

Lemma getPixelRGBA_setPixelRGBA_other
    (b : Bitmap.Bitmap) (x y x' y' : number) (xi yi xi' yi' : Z) (rgba : Z) :
  Bitmap.in_bounds b x y xi yi -> Bitmap.in_bounds b x' y' xi' yi' ->
  (xi, yi) <> (xi', yi') ->
  Bitmap.getPixelRGBA (Bitmap.setPixelRGBA b x y rgba) x' y'
  = Bitmap.getPixelRGBA b x' y'.
Proof.
  intros Hin Hin' Hne.
  assert (Bitmap.in_bounds (Bitmap.setPixelRGBA b x y rgba) x' y' xi' yi') as Hin''
    by exact Hin'.
  unfold Bitmap.getPixelRGBA.
  rewrite (calculateIndex_in_bounds _ _ _ _ _ Hin''),
    (calculateIndex_in_bounds _ _ _ _ _ Hin').
  unfold Bitmap.setPixelRGBA.
  rewrite (calculateIndex_in_bounds _ _ _ _ _ Hin).
  cbn [Bitmap.data Bitmap.width Bitmap.height].
  destruct Hin as (_ & _ & Hxi & Hyi), Hin' as (_ & _ & Hxi' & Hyi').
  assert (Bitmap.width b * yi + xi <> Bitmap.width b * yi' + xi') as Hp.
  { intros Heq. apply Hne.
    assert (yi = yi') by nia. subst yi'. f_equal. lia. }
  rewrite !get_byte_set_byte_ne by lia. reflexivity.
Qed.

(** X2.  In a well-formed buffer, a colour written at a pixel inside the
    bounds is the colour read back there, and every other pixel inside the
    bounds reads as before. *)
Theorem setPixelRGBA_then_getPixelRGBA
    (b : Bitmap.Bitmap) (x y : number) (xi yi : Z) (rgba : Z) :
  Bitmap.wf b -> Bitmap.in_bounds b x y xi yi -> is_uint32 rgba ->
  Bitmap.getPixelRGBA (Bitmap.setPixelRGBA b x y rgba) x y = rgba
  /\ forall x' y' xi' yi',
       Bitmap.in_bounds b x' y' xi' yi' -> (xi, yi) <> (xi', yi') ->
       Bitmap.getPixelRGBA (Bitmap.setPixelRGBA b x y rgba) x' y'
       = Bitmap.getPixelRGBA b x' y'.
Proof.
  intros Hwf Hin Hc. split.
  - by apply (getPixelRGBA_setPixelRGBA_same b x y xi yi).
  - intros x' y' xi' yi' Hin' Hne.
    by apply (getPixelRGBA_setPixelRGBA_other b x y x' y' xi yi xi' yi').
Qed.

Lemma take_4_drop (d : list Z) (n : nat) (a0 a1 a2 a3 : Z) :
  d !! n = Some a0 -> d !! S n = Some a1 -> d !! S (S n) = Some a2 ->
  d !! S (S (S n)) = Some a3 ->
  take 4 (drop n d) = [a0; a1; a2; a3].
Proof.
  intros H0 H1 H2 H3.
  rewrite (drop_S _ _ _ H0), (drop_S _ _ _ H1), (drop_S _ _ _ H2),
    (drop_S _ _ _ H3).
  reflexivity.
Qed.

(** X3.  In a well-formed buffer, the four components stored by
    [setPixelRGBA_i] at a pixel inside the bounds are what
    [getPixelRGBA_separate] returns there, each reduced to a byte (truncated,
    then modulo 256), and [getPixelRGBA] returns their packing. *)
Theorem setPixelRGBA_i_then_separate
    (b : Bitmap.Bitmap) (x y : number) (xi yi : Z) (r g bl a : number) :
  Bitmap.wf b -> Bitmap.in_bounds b x y xi yi ->
  Bitmap.getPixelRGBA_separate (Bitmap.setPixelRGBA_i b x y r g bl a) x y
  = [trunc r mod 256; trunc g mod 256; trunc bl mod 256; trunc a mod 256]
  /\ Bitmap.getPixelRGBA (Bitmap.setPixelRGBA_i b x y r g bl a) x y
     = fromBytesBigEndian (trunc r mod 256) (trunc g mod 256)
         (trunc bl mod 256) (trunc a mod 256).
Proof.
  intros Hwf Hin.
  pose proof (in_bounds_index_range b x y xi yi 0 Hwf Hin ltac:(lia)) as [? ?].
  pose proof (in_bounds_index_range b x y xi yi 1 Hwf Hin ltac:(lia)) as [? ?].
  pose proof (in_bounds_index_range b x y xi yi 2 Hwf Hin ltac:(lia)) as [? ?].
  pose proof (in_bounds_index_range b x y xi yi 3 Hwf Hin ltac:(lia)) as [? ?].
  assert (Bitmap.in_bounds (Bitmap.setPixelRGBA_i b x y r g bl a) x y xi yi)
    as Hin' by exact Hin.
  set (i := (Bitmap.width b * yi + xi) * 4) in *.
  set (d' := Bitmap.data (Bitmap.setPixelRGBA_i b x y r g bl a)).
  assert (Bitmap.get_byte d' (Some i) 0 = Some (trunc r mod 256)
          /\ Bitmap.get_byte d' (Some i) 1 = Some (trunc g mod 256)
          /\ Bitmap.get_byte d' (Some i) 2 = Some (trunc bl mod 256)
          /\ Bitmap.get_byte d' (Some i) 3 = Some (trunc a mod 256))
    as (G0 & G1 & G2 & G3).
  { unfold d', Bitmap.setPixelRGBA_i.
    rewrite (calculateIndex_in_bounds _ _ _ _ _ Hin). fold i.
    cbn [Bitmap.data].
    rewrite (get_byte_set_byte_eq _ i 3) by (rewrite ?length_set_byte; done).
    rewrite (get_byte_set_byte_ne _ i 3 _ i 2) by lia.
    rewrite (get_byte_set_byte_eq _ i 2) by (rewrite ?length_set_byte; done).
    rewrite (get_byte_set_byte_ne _ i 3 _ i 1),
      (get_byte_set_byte_ne _ i 2 _ i 1) by lia.
    rewrite (get_byte_set_byte_eq _ i 1) by (rewrite ?length_set_byte; done).
    rewrite (get_byte_set_byte_ne _ i 3 _ i 0),
      (get_byte_set_byte_ne _ i 2 _ i 0), (get_byte_set_byte_ne _ i 1 _ i 0)
      by lia.
    rewrite (get_byte_set_byte_eq _ i 0) by done. done. }
  assert (Bitmap.calculateIndex (Bitmap.setPixelRGBA_i b x y r g bl a) x y
          = Some i) as Hidx
    by (by rewrite (calculateIndex_in_bounds _ _ _ _ _ Hin')).
  split.
  - unfold Bitmap.getPixelRGBA_separate. rewrite Hidx. fold d'.
    unfold Bitmap.get_byte in G0, G1, G2, G3.
    rewrite bool_decide_eq_true_2 in G0, G1, G2, G3 by lia.
    replace (Z.to_nat (i + 0)) with (Z.to_nat i) in G0 by lia.
    replace (Z.to_nat (i + 1)) with (S (Z.to_nat i)) in G1 by lia.
    replace (Z.to_nat (i + 2)) with (S (S (Z.to_nat i))) in G2 by lia.
    replace (Z.to_nat (i + 3)) with (S (S (S (Z.to_nat i)))) in G3 by lia.
    by apply take_4_drop.
  - unfold Bitmap.getPixelRGBA. rewrite Hidx. fold d'.
    by rewrite G0, G1, G2, G3.
Qed.






(** ** Painting one pixel *)

(** [strokePixel]: the stroke colour through the clip test and the
    compositor. *)
Definition strokePixel (x y : number) : method () := fun c =>
  match pixelInsideClip c x y with
  | Ret false => (c, Ret ())
  | Ret true =>
      let new_pixel := _strokeColor c in
      let old_pixel := Bitmap.getPixelRGBA (bitmap c) x y in
      let final_pixel := composite c x y old_pixel new_pixel in
      (mkContext (Bitmap.setPixelRGBA (bitmap c) x y final_pixel)
         (_fillColor c) (_strokeColor c) (_lineWidth c) (_globalAlpha c)
         (transform c) (_font c) (textAlign c) (textBaseline c)
         (imageSmoothingEnabled c) (_fillStyle_text c) (_strokeStyle_text c)
         (path c) (_clip c) (pathstart c), Ret ())
  | Throw e => (c, Throw e)
  | OutOfFuel => (c, OutOfFuel)
  end.

(** Everything a surface holds except its pixels. *)
Definition same_but_pixels (c c' : Context) : Prop :=
  Bitmap.width (bitmap c') = Bitmap.width (bitmap c)
  /\ Bitmap.height (bitmap c') = Bitmap.height (bitmap c)
  /\ _fillColor c' = _fillColor c
  /\ _strokeColor c' = _strokeColor c /\ _lineWidth c' = _lineWidth c
  /\ _globalAlpha c' = _globalAlpha c /\ transform c' = transform c
  /\ _font c' = _font c
  /\ textAlign c' = textAlign c /\ textBaseline c' = textBaseline c
  /\ imageSmoothingEnabled c' = imageSmoothingEnabled c
  /\ _fillStyle_text c' = _fillStyle_text c
  /\ _strokeStyle_text c' = _strokeStyle_text c
  /\ path c' = path c /\ _clip c' = _clip c /\ pathstart c' = pathstart c.

Lemma composite_opaque_source (c : Context) (i j : number) (old_pixel col : Z) :
  _globalAlpha c = 1%float -> Z.land col 255 = 255 -> is_uint32 col ->
  composite c i j old_pixel col = col.
Proof.
  intros Hga Ha Hcol. rewrite composite_channels. cbv zeta.
  replace (source_alpha c col) with 1%float
    by (unfold source_alpha; rewrite Hga, Ha; vm_compute; reflexivity).
  rewrite !opaque_channel, opaque_alpha by apply land_255_byte.
  pose proof (fromBytes_getBytes col Hcol) as E. rewrite Ha in E. exact E.
Qed.

(** X5.  With the global alpha at 1, painting an opaque colour on a pixel
    that is inside the bounds of a well-formed buffer and passes the clip
    test returns and makes that pixel read the colour itself, whatever it
    held; every other pixel inside the bounds and every other field of the
    surface stay as they were.  [strokePixel] does so with the stroke
    colour. *)
Theorem fillPixelWithColor_opaque
    (c : Context) (x y : number) (xi yi : Z) (col : Z) :
  pixelInsideClip c x y = Ret true ->
  _globalAlpha c = 1%float ->
  Bitmap.wf (bitmap c) -> Bitmap.in_bounds (bitmap c) x y xi yi ->
  is_uint32 col -> Z.land col 255 = 255 ->
  exists c',
    fillPixelWithColor x y col c = (c', Ret ())
    /\ Bitmap.getPixelRGBA (bitmap c') x y = col
    /\ (forall x' y' xi' yi',
          Bitmap.in_bounds (bitmap c) x' y' xi' yi' -> (xi, yi) <> (xi', yi') ->
          Bitmap.getPixelRGBA (bitmap c') x' y'
          = Bitmap.getPixelRGBA (bitmap c) x' y')
    /\ same_but_pixels c c'
    /\ (_strokeColor c = col -> strokePixel x y c = (c', Ret ())).
Proof.
  intros Hclip Hga Hwf Hin Hcol Ha.
  unfold fillPixelWithColor, strokePixel. rewrite Hclip. cbv zeta.
  rewrite composite_opaque_source by assumption.
  eexists. split; [reflexivity|]. cbn [bitmap].
  split; [by apply (getPixelRGBA_setPixelRGBA_same _ x y xi yi)|].
  split.
  { intros x' y' xi' yi' Hin' Hne.
    by apply (getPixelRGBA_setPixelRGBA_other _ x y x' y' xi yi xi' yi'). }
  split; [repeat split|].
  intros ->. by rewrite composite_opaque_source.
Qed.

(** A pixel that fails the clip test is not painted: the surface is left
    exactly as it was. *)
Lemma clipped_pixel_is_not_painted (c : Context) (x y : number) (col : Z) :
  pixelInsideClip c x y = Ret false ->
  fillPixelWithColor x y col c = (c, Ret ())
  /\ strokePixel x y c = (c, Ret ()).
Proof.
  intros Hclip. unfold fillPixelWithColor, strokePixel. by rewrite Hclip.
Qed.

(** ** Flattening: accumulation, subpaths, polylines, end points *)

Definition is_move_or_line (cmd : PathCmd) : bool :=
  match cmd with
  | MOVE _ | LINE _ => true
  | _ => false
  end.

Definition is_line (cmd : PathCmd) : bool :=
  match cmd with
  | LINE _ => true
  | _ => false
  end.

Definition is_curve (cmd : PathCmd) : bool :=
  match cmd with
  | QUADRATIC_CURVE _ _ | BEZIER_CURVE _ _ _ => true
  | _ => false
  end.

(** The lines found so far in front of what a round returns. *)
Definition prepend (lines : list Line) (st : list Line * option Point)
    : list Line * option Point :=
  (lines ++ st.1, st.2).

Lemma push_points_acc (lines : list Line) (curr : option Point)
    (pts : list Point) :
  push_points (lines, curr) pts = prepend lines (push_points ([], curr) pts).
Proof.
  revert lines curr. induction pts as [|q pts IH]; intros lines curr.
  - unfold prepend. cbn. by rewrite app_nil_r.
  - cbn [push_points foldl fst snd]. fold (push_points).
    change (foldl _ ?st pts) with (push_points st pts).
    rewrite (IH (lines ++ _)), (IH ([] ++ _)). unfold prepend. cbn.
    by rewrite <- app_assoc.
Qed.

Lemma quadratic_loop_acc (fuel : nat) (pts : option Point * Point * Point)
    (t : number) (lines : list Line) (curr : option Point) :
  quadratic_loop fuel pts t lines curr
  = prepend lines <$> quadratic_loop fuel pts t [] curr.
Proof.
  revert t lines curr. induction fuel as [|fuel IH]; intros t lines curr; [done|].
  cbn [quadratic_loop]. destruct (t <? 1)%float.
  - destruct (calcQuadraticAtT pts t) as [pt| |]; [|done..].
    cbn [mbind outcome_bind].
    rewrite (IH _ (lines ++ _)), (IH _ ([] ++ _)).
    destruct (quadratic_loop fuel pts (t + step) [] (Some pt)) as [[ls c']| |];
      [|done..].
    unfold prepend. cbn. by rewrite <- app_assoc.
  - unfold prepend. cbn. by rewrite app_nil_r.
Qed.

Lemma pathToLines_cmd_acc (fuel : nat) (lines : list Line)
    (curr : option Point) (cmd : PathCmd) :
  pathToLines_cmd fuel (lines, curr) cmd
  = prepend lines <$> pathToLines_cmd fuel ([], curr) cmd.
Proof.
  destruct cmd as [pt|pt|cp1 pt|cp1 cp2 pt]; cbn [pathToLines_cmd].
  - unfold prepend. cbn. by rewrite app_nil_r.
  - reflexivity.
  - apply quadratic_loop_acc.
  - destruct curr as [c0|]; [|done].
    destruct (bezierToLines fuel (c0, cp1, cp2, pt) 10) as [pts| |]; [|done..].
    cbn. by rewrite push_points_acc.
Qed.

Lemma pathToLines_from_acc (fuel : nat) (lines : list Line)
    (curr : option Point) (path0 : list PathCmd) :
  pathToLines_from fuel (lines, curr) path0
  = (fun ls => lines ++ ls) <$> pathToLines_from fuel ([], curr) path0.
Proof.
  revert lines curr. induction path0 as [|cmd path0 IH]; intros lines curr.
  - cbn. by rewrite app_nil_r.
  - cbn [pathToLines_from]. rewrite pathToLines_cmd_acc.
    destruct (pathToLines_cmd fuel ([], curr) cmd) as [[ls c']| |]; [|done..].
    unfold prepend. cbn [fmap outcome_fmap mbind outcome_bind fst snd].
    rewrite (IH (lines ++ ls)), (IH ls).
    destruct (pathToLines_from fuel ([], c') path0) as [ls'| |]; [|done..].
    cbn. by rewrite <- app_assoc.
Qed.

Lemma pathToLines_from_subpaths (fuel : nat) (st : list Line * option Point)
    (path1 path2 : list PathCmd) (pt : Point) :
  pathToLines_from fuel st (path1 ++ MOVE pt :: path2)
  = lines1 ← pathToLines_from fuel st path1;
    lines2 ← pathToLines_from fuel ([], Some pt) path2;
    Ret (lines1 ++ lines2).
Proof.
  revert st. induction path1 as [|cmd path1 IH]; intros st.
  - destruct st as [lines curr].
    cbn [app pathToLines_from pathToLines_cmd mbind outcome_bind fst].
    rewrite pathToLines_from_acc.
    by destruct (pathToLines_from fuel ([], Some pt) path2).
  - cbn [app pathToLines_from].
    destruct (pathToLines_cmd fuel st cmd) as [st'| |]; [|done..].
    cbn [mbind outcome_bind]. apply IH.
Qed.

(** X6.  Subpaths are flattened independently: the lines of a path followed
    by a subpath that starts with a move are the lines of the path followed
    by the lines of the subpath taken alone, and the whole throws or runs out
    of fuel exactly as the first of the two parts that does. *)
Theorem pathToLines_subpaths (fuel : nat) (path1 path2 : list PathCmd) (pt : Point) :
  pathToLines fuel (path1 ++ MOVE pt :: path2)
  = lines1 ← pathToLines fuel path1;
    lines2 ← pathToLines fuel (MOVE pt :: path2);
    Ret (lines1 ++ lines2).
Proof. apply pathToLines_from_subpaths. Qed.

Lemma pathToLines_from_polyline (fuel : nat) (lines : list Line)
    (curr : option Point) (pts : list Point) :
  pathToLines_from fuel (lines, curr) ((fun q => LINE (Some q)) <$> pts)
  = Ret (push_points (lines, curr) pts).1.
Proof.
  revert lines curr. induction pts as [|q pts IH]; intros lines curr; [done|].
  cbn [fmap list_fmap pathToLines_from pathToLines_cmd mbind outcome_bind].
  apply IH.
Qed.

Lemma push_points_chain (p0 : Point) (pts : list Point) :
  (push_points ([], Some p0) pts).1
  = zip_with (fun a b => mkLine (Some a) (Some b)) (p0 :: pts) pts.
Proof.
  revert p0. induction pts as [|q pts IH]; intros p0; [done|].
  cbn [push_points foldl fst snd zip_with].
  change (foldl _ ?st pts) with (push_points st pts).
  rewrite push_points_acc. unfold prepend. cbn [fst app].
  by rewrite IH.
Qed.

(** X7.  A move followed by lines to [pts] is flattened, with any fuel and
    without throwing, into the chain of segments from each point to the
    next: as many segments as there are lines, the first starting at the
    point of the move. *)
Theorem pathToLines_polyline (fuel : nat) (p0 : Point) (pts : list Point) :
  pathToLines fuel (MOVE p0 :: ((fun q => LINE (Some q)) <$> pts))
  = Ret (zip_with (fun a b => mkLine (Some a) (Some b)) (p0 :: pts) pts)
  /\ length (zip_with (fun a b => mkLine (Some a) (Some b)) (p0 :: pts) pts)
     = length pts.
Proof.
  split.
  - unfold pathToLines.
    cbn [pathToLines_from pathToLines_cmd mbind outcome_bind].
    by rewrite pathToLines_from_polyline, push_points_chain.
  - rewrite length_zip_with. cbn [length]. lia.
Qed.

(** X8.  A curve command met without a current point (the first command of
    a path, with no move before it) makes [pathToLines] throw a
    [TypeError], whatever follows. *)
Theorem pathToLines_curve_without_current_point
    (fuel : nat) (cmd : PathCmd) (rest : list PathCmd) :
  is_curve cmd = true ->
  pathToLines (S fuel) (cmd :: rest) = Throw TypeError.
Proof.
  intros Hc. destruct cmd as [?|?|cp1 pt|cp1 cp2 pt]; try discriminate Hc; done.
Qed.

Lemma recurse_end_points (fuel : nat) (THRESHOLD : number)
    (curve : IPointCurve) (pts : list Point) :
  recurse fuel THRESHOLD curve = Ret pts ->
  head pts = Some curve.1.1.1 /\ last pts = Some curve.2
  /\ Nat.even (length pts) = true.
Proof.
  revert curve pts. induction fuel as [|fuel IH]; intros curve pts; [done|].
  cbn [recurse]. destruct (flatness curve <? THRESHOLD)%float eqn:Hflat.
  - intros [= <-]. done.
  - destruct (recurse fuel THRESHOLD (splitCurveAtT curve 0.5).1)
      as [l| |] eqn:Hl; [|done..].
    destruct (recurse fuel THRESHOLD (splitCurveAtT curve 0.5).2)
      as [r| |] eqn:Hr; [|done..].
    cbn [mbind outcome_bind]. intros [= <-].
    destruct (IH _ _ Hl) as (Hl1 & Hl2 & Hl3).
    destruct (IH _ _ Hr) as (Hr1 & Hr2 & Hr3).
    destruct curve as [[[p1 p2] p3] p4]. cbn in Hl1, Hr2.
    destruct l as [|a l]; [done|]. destruct r as [|b r]; [done|].
    split; [exact Hl1|]. split.
    + rewrite last_app. by rewrite Hr2.
    + rewrite length_app, Nat.even_add, Hl3, Hr3. done.
Qed.

Lemma push_points_last (st : list Line * option Point) (pts : list Point) :
  (push_points st pts).2 = from_option Some st.2 (last pts).
Proof.
  revert st. induction pts as [|q pts IH]; intros st; [reflexivity|].
  cbn [push_points foldl]. change (foldl _ ?s pts) with (push_points s pts).
  rewrite IH. cbn [snd]. destruct pts as [|q' pts]; [done|].
  rewrite last_cons_cons.
  destruct (last (q' :: pts)) eqn:E; [done|]. by apply last_None in E.
Qed.

(** X9.  When the flattening of a cubic returns, its points come in pairs,
    the first is the start of the curve and the last is its end point; and
    after a cubic command [pathToLines] goes on from exactly the end point of
    the command. *)
Theorem bezierToLines_end_points
    (fuel : nat) (lines : list Line) (c0 cp1 cp2 pt : Point)
    (st : list Line * option Point) :
  pathToLines_cmd fuel (lines, Some c0) (BEZIER_CURVE cp1 cp2 pt) = Ret st ->
  st.2 = Some pt
  /\ exists pts,
       bezierToLines fuel (c0, cp1, cp2, pt) 10 = Ret pts
       /\ head pts = Some c0 /\ last pts = Some pt
       /\ Nat.even (length pts) = true
       /\ st.1 = lines ++ (push_points ([], Some c0) pts).1.
Proof.
  cbn [pathToLines_cmd]. unfold bezierToLines.
  destruct (recurse fuel 10 (c0, cp1, cp2, pt)) as [pts| |] eqn:Hrec; [|done..].
  cbn [mbind outcome_bind]. intros [= <-].
  destruct (recurse_end_points _ _ _ _ Hrec) as (Hh & Hl & He).
  split.
  - rewrite push_points_last, Hl. done.
  - exists pts. repeat split; try done.
    rewrite push_points_acc. done.
Qed.

(** ** More on the clip test *)

Definition missing_end_point (l : Line) : Prop :=
  start l = None \/ end_ l = None.

Lemma pixelInsideClip_parity
    (c : Context) (segs : list (Point * Point)) (x0 y0 : number) :
  _clip c = Some (segment <$> segs) ->
  pixelInsideClip c x0 y0 = Ret (Nat.odd (crossings_left_of segs x0 y0)).
Proof.
  unfold pixelInsideClip. intros ->. unfold calcSortedIntersections.
  rewrite intersections_loop_crossings, app_nil_l.
  unfold fmap, outcome_fmap, mbind, outcome_bind. f_equal.
  rewrite odd_mod2. f_equal. unfold crossings_left_of.
  apply Permutation_length. apply filter_Permutation, sort_perm.
Qed.

Lemma crossings_app (segs1 segs2 : list (Point * Point)) (y0 : number) :
  crossings (segs1 ++ segs2) y0 = crossings segs1 y0 ++ crossings segs2 y0.
Proof. unfold crossings. by rewrite filter_app, fmap_app. Qed.

Lemma crossings_left_of_app (segs1 segs2 : list (Point * Point)) (x0 y0 : number) :
  crossings_left_of (segs1 ++ segs2) x0 y0
  = (crossings_left_of segs1 x0 y0 + crossings_left_of segs2 x0 y0)%nat.
Proof.
  unfold crossings_left_of. by rewrite crossings_app, filter_app, length_app.
Qed.

(** X10.  The clip test does not depend on the order in which the segments of
    the boundary are stored. *)
Theorem clip_test_ignores_segment_order
    (c c' : Context) (segs segs' : list (Point * Point)) (x0 y0 : number) :
  _clip c = Some (segment <$> segs) ->
  _clip c' = Some (segment <$> segs') ->
  segs ≡ₚ segs' ->
  pixelInsideClip c x0 y0 = pixelInsideClip c' x0 y0.
Proof.
  intros Hc Hc' Hperm.
  rewrite (pixelInsideClip_parity _ _ _ _ Hc), (pixelInsideClip_parity _ _ _ _ Hc').
  do 2 f_equal. unfold crossings_left_of, crossings.
  apply Permutation_length, filter_Permutation, fmap_Permutation,
    filter_Permutation, Hperm.
Qed.

(** X11.  Even-odd rule: against a boundary made of two boundaries, a point
    passes the clip test exactly when it passes the test of one of the two
    and not of the other.  Against a boundary stored twice no point
    passes. *)
Theorem clip_test_of_two_boundaries
    (c c1 c2 : Context) (segs1 segs2 : list (Point * Point)) (x0 y0 : number) :
  _clip c = Some (segment <$> (segs1 ++ segs2)) ->
  _clip c1 = Some (segment <$> segs1) ->
  _clip c2 = Some (segment <$> segs2) ->
  exists in1 in2,
    pixelInsideClip c1 x0 y0 = Ret in1
    /\ pixelInsideClip c2 x0 y0 = Ret in2
    /\ pixelInsideClip c x0 y0 = Ret (xorb in1 in2)
    /\ (segs1 = segs2 -> pixelInsideClip c x0 y0 = Ret false).
Proof.
  intros Hc Hc1 Hc2.
  exists (Nat.odd (crossings_left_of segs1 x0 y0)),
         (Nat.odd (crossings_left_of segs2 x0 y0)).
  rewrite (pixelInsideClip_parity _ _ _ _ Hc), (pixelInsideClip_parity _ _ _ _ Hc1),
    (pixelInsideClip_parity _ _ _ _ Hc2).
  rewrite crossings_left_of_app, Nat.odd_add.
  repeat split. intros ->. by rewrite xorb_nilpotent.
Qed.

Lemma intersections_loop_missing (lines : list Line) (y0 : number)
    (xlist : list number) :
  Exists missing_end_point lines ->
  intersections_loop lines y0 xlist = Throw TypeError.
Proof.
  intros Hex. revert xlist.
  induction lines as [|l lines IH]; intros xlist; [by apply Exists_nil in Hex|].
  cbn [intersections_loop].
  destruct (start l) as [A|] eqn:HA; [|done].
  destruct (end_ l) as [B|] eqn:HB; [|done].
  apply Exists_cons in Hex as [[Hs|He]|Hex]; [congruence..|].
  destruct (_ || _); by apply IH.
Qed.

Lemma intersections_loop_complete (lines : list Line) (y0 : number)
    (xlist : list number) :
  ~ Exists missing_end_point lines ->
  exists xs, intersections_loop lines y0 xlist = Ret (xlist ++ xs)
    /\ (length xs <= length lines)%nat.
Proof.
  revert xlist. induction lines as [|l lines IH]; intros xlist Hno.
  - exists []. split; [by rewrite app_nil_r|done].
  - cbn [intersections_loop].
    destruct (start l) as [A|] eqn:HA;
      [|exfalso; apply Hno, Exists_cons; left; by left].
    destruct (end_ l) as [B|] eqn:HB;
      [|exfalso; apply Hno, Exists_cons; left; by right].
    assert (~ Exists missing_end_point lines) as Hno'
      by (intros Hex; apply Hno, Exists_cons; by right).
    destruct (_ || _).
    + destruct (IH (xlist ++ [(x A + (y0 - y A) / (y B - y A) * (x B - x A))%float])
                  Hno') as (xs & Hxs & Hlen).
      eexists (_ :: xs). rewrite Hxs, <- app_assoc. split; [done|cbn; lia].
    + destruct (IH xlist Hno') as (xs & Hxs & Hlen).
      exists xs. split; [done|cbn; lia].
Qed.

(** X12.  [calcSortedIntersections] throws a [TypeError] exactly when one of
    the lines lacks an end point; otherwise it returns, with at most one
    intersection for each line. *)
Theorem calcSortedIntersections_throws_iff (lines : list Line) (y0 : number) :
  (calcSortedIntersections lines y0 = Throw TypeError
   <-> Exists missing_end_point lines)
  /\ (~ Exists missing_end_point lines ->
      exists xs, calcSortedIntersections lines y0 = Ret xs
        /\ (length xs <= length lines)%nat).
Proof.
  unfold calcSortedIntersections.
  assert (~ Exists missing_end_point lines ->
          exists xs, sort <$> intersections_loop lines y0 [] = Ret xs
            /\ (length xs <= length lines)%nat) as Hret.
  { intros Hno.
    destruct (intersections_loop_complete lines y0 [] Hno) as (xs & Hxs & Hlen).
    exists (sort xs). rewrite Hxs. split; [done|].
    by rewrite (Permutation_length (sort_perm xs)). }
  split; [|exact Hret]. split.
  - intros Hthrow.
    assert (forall l, {missing_end_point l} + {~ missing_end_point l}) as Hdec.
    { intros l. unfold missing_end_point.
      destruct (start l), (end_ l);
        first [by left; right | by left; left | right; by intros [?|?]]. }
    destruct (@Exists_dec _ missing_end_point Hdec lines) as [Hex|Hno]; [done|].
    destruct (Hret Hno) as (xs & Hxs & _). congruence.
  - intros Hex. by rewrite intersections_loop_missing.
Qed.

Lemma pathToLines_from_moves_and_lines (fuel : nat)
    (st : list Line * option Point) (path0 : list PathCmd) :
  forallb is_move_or_line path0 = true ->
  exists ls, pathToLines_from fuel st path0 = Ret (st.1 ++ ls)
    /\ length ls = length (filter (fun cmd => is_line cmd = true) path0).
Proof.
  revert st. induction path0 as [|cmd path0 IH]; intros st Hml.
  - exists []. by rewrite app_nil_r.
  - cbn [forallb] in Hml. apply andb_prop in Hml as [Hcmd Hrest].
    destruct st as [lines curr].
    destruct cmd as [pt|pt|?|?]; try discriminate Hcmd;
      cbn [pathToLines_from pathToLines_cmd mbind outcome_bind].
    + destruct (IH (lines, Some pt) Hrest) as (ls & Hls & Hlen).
      exists ls. split; [done|]. by rewrite filter_cons_False.
    + destruct (IH (lines ++ [mkLine curr pt], pt) Hrest) as (ls & Hls & Hlen).
      exists (mkLine curr pt :: ls). rewrite Hls. cbn [fst].
      rewrite <- app_assoc. split; [done|].
      rewrite filter_cons_True by done. cbn. by rewrite Hlen.
Qed.

(** X13.  [clip] on a path that was begun and has no command stores an empty
    boundary, not the absence of one: afterwards no point passes the clip
    test and painting a pixel changes nothing. *)
Theorem clip_of_empty_path (fuel : nat) (c : Context) :
  path c = Some [] ->
  exists c',
    clip fuel c = (c', Ret ())
    /\ _clip c' = Some []
    /\ forall x0 y0 col,
         pixelInsideClip c' x0 y0 = Ret false
         /\ fillPixelWithColor x0 y0 col c' = (c', Ret ()).
Proof.
  intros Hp. unfold clip. rewrite Hp. cbn.
  eexists. split; [reflexivity|]. split; [reflexivity|].
  intros x0 y0 col. split; [reflexivity|].
  by apply clipped_pixel_is_not_painted.
Qed.

(** X14.  A path of moves and lines that starts with a line, with no move
    before it, is accepted by [clip]; its first line has no start, and from
    then on the clip test throws a [TypeError] at every point, and so does
    every painting of a pixel. *)
Theorem clip_of_path_starting_with_line
    (fuel : nat) (c : Context) (pt : option Point) (rest : list PathCmd) :
  path c = Some (LINE pt :: rest) ->
  forallb is_move_or_line rest = true ->
  exists c',
    clip fuel c = (c', Ret ())
    /\ forall x0 y0 col,
         pixelInsideClip c' x0 y0 = Throw TypeError
         /\ fillPixelWithColor x0 y0 col c' = (c', Throw TypeError).
Proof.
  intros Hp Hrest. unfold clip. rewrite Hp. unfold pathToLines.
  cbn [pathToLines_from pathToLines_cmd mbind outcome_bind].
  destruct (pathToLines_from_moves_and_lines fuel
              ([] ++ [mkLine None pt], pt) rest Hrest) as (ls & Hls & _).
  rewrite Hls. cbn [fst app].
  eexists. split; [reflexivity|].
  intros x0 y0 col.
  assert (pixelInsideClip (with_clip (Some (mkLine None pt :: ls)) c) x0 y0
          = Throw TypeError) as Hthrow by reflexivity.
  split; [exact Hthrow|].
  unfold fillPixelWithColor. by rewrite Hthrow.
Qed.

(** ** Clearing a rectangle *)

(** [clearRect]: the inner loop [for (let j = y; j < y + h; j++)] and the
    outer loop [for (let i = x; i < x + w; i++)]; each test of a loop
    condition takes one unit of fuel. *)
Fixpoint clearRect_column (fuel : nat) (i j ymax : number) (b : Bitmap.Bitmap)
    : outcome Bitmap.Bitmap :=
  match fuel with
  | O => OutOfFuel
  | S fuel =>
      if (j <? ymax)%float
      then clearRect_column fuel i (j + 1)%float ymax
             (Bitmap.setPixelRGBA b i j 0x00000000)
      else Ret b
  end.

Fixpoint clearRect_rows (fuel : nat) (i xmax y ymax : number) (b : Bitmap.Bitmap)
    : outcome Bitmap.Bitmap :=
  match fuel with
  | O => OutOfFuel
  | S fuel =>
      if (i <? xmax)%float
      then b' ← clearRect_column fuel i y ymax b;
           clearRect_rows fuel (i + 1)%float xmax y ymax b'
      else Ret b
  end.

Definition with_bitmap (v : Bitmap.Bitmap) (c : Context) : Context :=
  mkContext v (_fillColor c) (_strokeColor c) (_lineWidth c)
    (_globalAlpha c) (transform c) (_font c) (textAlign c) (textBaseline c)
    (imageSmoothingEnabled c) (_fillStyle_text c) (_strokeStyle_text c)
    (path c) (_clip c) (pathstart c).

Definition clearRect (fuel : nat) (x y w h : number) : method () := fun c =>
  match clearRect_rows fuel x (x + w)%float y (y + h)%float (bitmap c) with
  | Ret b => (with_bitmap b c, Ret ())
  | Throw e => (c, Throw e)
  | OutOfFuel => (c, OutOfFuel)
  end.

(** Two buffers of the same size. *)
Definition same_shape (b b' : Bitmap.Bitmap) : Prop :=
  Bitmap.width b' = Bitmap.width b /\ Bitmap.height b' = Bitmap.height b
  /\ length (Bitmap.data b') = length (Bitmap.data b).

Lemma setPixelRGBA_same_shape (b : Bitmap.Bitmap) (x y : number) (rgba : Z) :
  same_shape b (Bitmap.setPixelRGBA b x y rgba).
Proof.
  repeat split. unfold Bitmap.setPixelRGBA. cbn [Bitmap.data].
  by rewrite !length_set_byte.
Qed.

Lemma same_shape_trans (b1 b2 b3 : Bitmap.Bitmap) :
  same_shape b1 b2 -> same_shape b2 b3 -> same_shape b1 b3.
Proof. unfold same_shape. intros (? & ? & ?) (? & ? & ?). repeat split; congruence. Qed.

Lemma clearRect_column_same_shape
    (fuel : nat) (i j ymax : number) (b b' : Bitmap.Bitmap) :
  clearRect_column fuel i j ymax b = Ret b' -> same_shape b b'.
Proof.
  revert j b. induction fuel as [|fuel IH]; intros j b; [discriminate|].
  cbn [clearRect_column]. destruct (j <? ymax)%float.
  - intros H. apply IH in H.
    exact (same_shape_trans _ _ _ (setPixelRGBA_same_shape b i j 0) H).
  - intros [= <-]. by repeat split.
Qed.

Lemma clearRect_rows_same_shape
    (fuel : nat) (i xmax y ymax : number) (b b' : Bitmap.Bitmap) :
  clearRect_rows fuel i xmax y ymax b = Ret b' -> same_shape b b'.
Proof.
  revert i b. induction fuel as [|fuel IH]; intros i b; [discriminate|].
  cbn [clearRect_rows]. destruct (i <? xmax)%float.
  - destruct (clearRect_column fuel i y ymax b) as [b1| |] eqn:Hcol;
      cbn [mbind outcome_bind]; try discriminate.
    intros H. apply IH in H.
    exact (same_shape_trans _ _ _ (clearRect_column_same_shape _ _ _ _ _ _ Hcol) H).
  - intros [= <-]. by repeat split.
Qed.

Lemma with_bitmap_same (c : Context) : with_bitmap (bitmap c) c = c.
Proof. by destruct c. Qed.

(** X15.  A call of [clearRect] that returns changes nothing of the context
    but the bytes of the buffer: the buffer keeps its width, height and
    length (so a well-formed buffer stays well-formed), and the styles, the
    transform, the path and the clip are as before. *)
Theorem clearRect_keeps_shape
    (fuel : nat) (x y w h : number) (c c' : Context) :
  clearRect fuel x y w h c = (c', Ret ()) ->
  same_but_pixels c c'
  /\ length (Bitmap.data (bitmap c')) = length (Bitmap.data (bitmap c))
  /\ (Bitmap.wf (bitmap c) -> Bitmap.wf (bitmap c')).
Proof.
  unfold clearRect.
  destruct (clearRect_rows fuel x (x + w) y (y + h) (bitmap c)) as [b| |] eqn:E;
    try discriminate.
  intros [= <-]. apply clearRect_rows_same_shape in E as (Hw & Hh & Hlen).
  cbn [bitmap with_bitmap]. split; [by repeat split|]. split; [exact Hlen|].
  intros (? & ? & Hwf). unfold Bitmap.wf. rewrite Hw, Hh, Hlen. done.
Qed.

Lemma ltb_irrefl (a : number) : (a <? a)%float = false.
Proof.
  rewrite FloatAxioms.ltb_spec. unfold SFltb.
  destruct (Prim2SF a) as [s|s| |s m e]; try done.
  - by destruct s.
  - cbn [SFcompare]. destruct s; rewrite Z.compare_refl, Pos.compare_cont_refl; done.
Qed.

Lemma add_nan_r (a : number) : (a + nan)%float = nan.
Proof.
  apply Prim2SF_inj. rewrite FloatAxioms.add_spec.
  change (Prim2SF nan) with S754_nan. by destruct (Prim2SF a).
Qed.

Lemma add_nan_l (a : number) : (nan + a)%float = nan.
Proof.
  apply Prim2SF_inj. rewrite FloatAxioms.add_spec.
  change (Prim2SF nan) with S754_nan. by destruct (Prim2SF a).
Qed.

Lemma ltb_nan_r (a : number) : (a <? nan)%float = false.
Proof.
  rewrite FloatAxioms.ltb_spec. change (Prim2SF nan) with S754_nan.
  by destruct (Prim2SF a).
Qed.

Lemma ltb_nan_l (a : number) : (nan <? a)%float = false.
Proof.
  rewrite FloatAxioms.ltb_spec. change (Prim2SF nan) with S754_nan.
  by destruct (Prim2SF a).
Qed.

(** X16.  [clearRect] with nothing to clear returns at once and leaves the
    context as it is: when the width or the left edge is [NaN], and
    whenever [x < x + w] is false (a width of zero, a negative width). *)
Theorem clearRect_nothing_to_clear
    (fuel : nat) (x y w h : number) (c : Context) :
  clearRect (S fuel) x y nan h c = (c, Ret ())
  /\ clearRect (S fuel) nan y w h c = (c, Ret ())
  /\ clearRect (S fuel) x y 0 h c = (c, Ret ())
  /\ ((x <? x + w)%float = false -> clearRect (S fuel) x y w h c = (c, Ret ())).
Proof.
  assert (forall x w, (x <? x + w)%float = false ->
                      clearRect (S fuel) x y w h c = (c, Ret ())) as Hempty.
  { intros x1 w1 Hlt. unfold clearRect. cbn [clearRect_rows]. rewrite Hlt.
    by rewrite with_bitmap_same. }
  repeat split.
  - apply Hempty. by rewrite add_nan_r, ltb_nan_r.
  - apply Hempty. by rewrite ltb_nan_l.
  - apply Hempty. rewrite FloatAxioms.ltb_spec, FloatAxioms.add_spec.
    change (Prim2SF 0) with (S754_zero false).
    destruct (Prim2SF x) as [s|s| |s m e]; try done.
    + by destruct s.
    + by destruct s.
    + unfold SF64add, SFadd, SFltb, SFcompare.
      destruct s; rewrite Z.compare_refl, Pos.compare_cont_refl; done.
  - apply Hempty.
Qed.

(** X17.  [clearRect(x, y, 1, 1)] at a pixel inside a well-formed buffer,
    where adding 1 to the coordinates is exact enough to move them, clears
    that pixel and no other: it reads 0 afterwards, every other pixel reads
    as before, and nothing else of the context changes.  The clip region
    and the transform play no part: the pixel is cleared whatever they
    are. *)
Theorem clearRect_one_pixel
    (fuel : nat) (c : Context) (x y : number) (xi yi : Z) :
  (x <? x + 1)%float = true -> (y <? y + 1)%float = true ->
  Bitmap.wf (bitmap c) -> Bitmap.in_bounds (bitmap c) x y xi yi ->
  exists c',
    clearRect (S (S (S fuel))) x y 1 1 c = (c', Ret ())
    /\ bitmap c' = Bitmap.setPixelRGBA (bitmap c) x y 0
    /\ Bitmap.getPixelRGBA (bitmap c') x y = 0
    /\ (forall x' y' xi' yi',
          Bitmap.in_bounds (bitmap c) x' y' xi' yi' -> (xi, yi) <> (xi', yi') ->
          Bitmap.getPixelRGBA (bitmap c') x' y'
          = Bitmap.getPixelRGBA (bitmap c) x' y')
    /\ same_but_pixels c c'.
Proof.
  intros Hx Hy Hwf Hin.
  exists (with_bitmap (Bitmap.setPixelRGBA (bitmap c) x y 0) c).
  split.
  { unfold clearRect. cbn [clearRect_rows clearRect_column].
    rewrite Hx, Hy, ltb_irrefl. cbn [mbind outcome_bind].
    destruct fuel; cbn [clearRect_rows]; by rewrite ltb_irrefl. }
  cbn [bitmap with_bitmap]. split; [reflexivity|]. split.
  { apply (getPixelRGBA_setPixelRGBA_same _ x y xi yi); [done|done|].
    unfold is_uint32. lia. }
  split; [|by repeat split].
  intros x' y' xi' yi' Hin' Hne.
  by apply (getPixelRGBA_setPixelRGBA_other _ x y x' y' xi yi xi' yi').
Qed.

(** ** Polygons, the start point and the styles *)

Definition is_moveTo (k : Call) : bool :=
  match k with
  | CMoveTo _ _ => true
  | _ => false
  end.

Definition lineTos (xys : list (number * number)) : list Call :=
  (fun xy => CLineTo xy.1 xy.2) <$> xys.

Lemma call_keeps_pathstart (k : Call) (c c' : Context) (o : outcome ()) :
  is_moveTo k = false -> call k c = (c', o) -> pathstart c' = pathstart c.
Proof.
  intros Hk. destruct k; try discriminate Hk; cbn;
    unfold lineTo, _lineTo, quadraticCurveTo, bezierCurveTo, _bezierCurveTo,
      translate, rotate, scale, save, restore, path_push;
    try destruct (path c); intros [= <- _]; reflexivity.
Qed.

Lemma run_keeps_pathstart (calls : list Call) (c c' : Context) (o : outcome ()) :
  forallb (fun k => negb (is_moveTo k)) calls = true ->
  run calls c = (c', o) -> pathstart c' = pathstart c.
Proof.
  revert c. induction calls as [|k calls IH]; intros c Hcalls.
  - by intros [= <- _].
  - cbn [forallb] in Hcalls. apply andb_prop in Hcalls as [Hk Hrest].
    apply negb_true_iff in Hk. cbn [run].
    destruct (call k c) as [c1 o1] eqn:Hcall.
    pose proof (call_keeps_pathstart k c c1 o1 Hk Hcall) as H1.
    destruct o1 as [[]|e|].
    + intros Hrun. rewrite (IH c1 Hrest Hrun). exact H1.
    + by intros [= <- _].
    + by intros [= <- _].
Qed.

Lemma closePath_after_moveTo
    (calls : list Call) (c : Context) (p : list PathCmd) (x0 y0 : number) :
  path c = Some p ->
  forallb (fun k => negb (is_moveTo k)) calls = true ->
  exists c1 c2,
    run (CMoveTo x0 y0 :: calls) c = (c1, Ret ())
    /\ closePath c1 = (c2, Ret ())
    /\ path c2
       = Some (p ++ baked (transform c) (CMoveTo x0 y0 :: calls)
                 ++ [LINE (Some (transformPoint (transform c) (mkPoint x0 y0)))]).
Proof.
  intros Hp Hcalls.
  destruct (run_bakes (CMoveTo x0 y0 :: calls) c p Hp) as (c1 & Hrun & Hp1).
  assert (pathstart c1 = Some (transformPoint (transform c) (mkPoint x0 y0)))
    as Hstart.
  { cbn [run call] in Hrun. unfold moveTo, _moveTo, path_push in Hrun.
    cbn in Hrun. rewrite Hp in Hrun.
    by rewrite (run_keeps_pathstart _ _ _ _ Hcalls Hrun). }
  exists c1. eexists. split; [exact Hrun|].
  rewrite (closePath_appends c1 _ Hp1), Hstart.
  split; [reflexivity|]. cbn [path with_path]. by rewrite <- app_assoc.
Qed.

(** X18.  [closePath] closes to the point of the last [moveTo] as it was
    mapped when that call was made: after [moveTo(x, y)] and any calls other
    than [moveTo] (lines, curves, changes of the transform), it appends one
    line whose target is [(x, y)] under the transform current at the
    [moveTo], not under the transform current at [closePath]. *)
Theorem closePath_targets_moveTo_point
    (calls : list Call) (c : Context) (p : list PathCmd) (x0 y0 : number) :
  path c = Some p ->
  forallb (fun k => negb (is_moveTo k)) calls = true ->
  exists c1 c2,
    run (CMoveTo x0 y0 :: calls) c = (c1, Ret ())
    /\ closePath c1 = (c2, Ret ())
    /\ path c2
       = Some (p ++ baked (transform c) (CMoveTo x0 y0 :: calls)
                 ++ [LINE (Some (transformPoint (transform c) (mkPoint x0 y0)))]).
Proof. apply closePath_after_moveTo. Qed.

Lemma baked_lineTos (t : Transform) (xys : list (number * number)) :
  baked t (lineTos xys)
  = (fun xy => LINE (Some (transformPoint t (mkPoint xy.1 xy.2)))) <$> xys.
Proof.
  induction xys as [|xy xys IH]; [done|].
  cbn [lineTos fmap list_fmap baked baked_cmd transform_after app].
  f_equal. exact IH.
Qed.

Lemma lineTos_no_moveTo (xys : list (number * number)) :
  forallb (fun k => negb (is_moveTo k)) (lineTos xys) = true.
Proof. by induction xys. Qed.

Lemma zip_with_segment (l1 l2 : list Point) :
  zip_with (fun a b => mkLine (Some a) (Some b)) l1 l2 = segment <$> zip l1 l2.
Proof.
  revert l2. induction l1 as [|a l1 IH]; intros [|b l2]; cbn; try done.
  by rewrite IH.
Qed.

Lemma zip_longer_left (l1 k l2 : list Point) :
  (length l2 <= length l1)%nat -> zip (l1 ++ k) l2 = zip l1 l2.
Proof.
  revert l2. induction l1 as [|a l1 IH]; intros [|b l2] Hlen; cbn in *;
    try done; try lia.
  - by destruct k.
  - rewrite IH by lia. done.
Qed.

(** X19.  A polygon as a clip boundary: [beginPath], [moveTo], [lineTo]
    ..., [closePath] and [clip] all return, whatever path was there before,
    and the clip boundary is the closed chain of the points mapped through
    the transform: one segment from each point to the next and a last one
    back to the first. *)
Theorem polygon_clip_boundary
    (fuel : nat) (c : Context) (x0 y0 : number) (xys : list (number * number)) :
  let P := fun xy : number * number =>
             transformPoint (transform c) (mkPoint xy.1 xy.2) in
  exists c0 c1 c2 c3,
    beginPath c = (c0, Ret ())
    /\ run (CMoveTo x0 y0 :: lineTos xys) c0 = (c1, Ret ())
    /\ closePath c1 = (c2, Ret ())
    /\ clip fuel c2 = (c3, Ret ())
    /\ _clip c3
       = Some (segment <$> zip (P (x0, y0) :: (P <$> xys))
                               ((P <$> xys) ++ [P (x0, y0)]))
    /\ length (zip (P (x0, y0) :: (P <$> xys)) ((P <$> xys) ++ [P (x0, y0)]))
       = S (length xys).
Proof.
  intros P. exists (with_path (Some []) c).
  destruct (closePath_after_moveTo (lineTos xys) (with_path (Some []) c) []
              x0 y0 eq_refl (lineTos_no_moveTo xys))
    as (c1 & c2 & Hrun & Hclose & Hp2).
  exists c1, c2. eexists. split; [reflexivity|].
  split; [exact Hrun|]. split; [exact Hclose|].
  cbn [baked baked_cmd transform_after app] in Hp2.
  rewrite baked_lineTos in Hp2.
  change (transform (with_path (Some []) c)) with (transform c) in Hp2.
  assert (path c2 = Some (MOVE (P (x0, y0))
            :: ((fun q => LINE (Some q)) <$> ((P <$> xys) ++ [P (x0, y0)]))))
    as Hpath.
  { rewrite Hp2. f_equal. cbn [app]. f_equal.
    rewrite fmap_app, <- list_fmap_compose. reflexivity. }
  unfold clip. rewrite Hpath.
  unfold pathToLines.
  cbn [pathToLines_from pathToLines_cmd mbind outcome_bind].
  rewrite pathToLines_from_polyline, push_points_chain, zip_with_segment.
  change (P (x0, y0) :: (P <$> xys) ++ [P (x0, y0)])
    with ((P (x0, y0) :: (P <$> xys)) ++ [P (x0, y0)]).
  rewrite zip_longer_left
    by (rewrite length_app, length_cons; cbn [length]; lia).
  split; [reflexivity|]. split; [reflexivity|].
  rewrite length_zip, length_app, length_cons, !length_fmap. cbn [length]. lia.
Qed.

(** A program of assignments to [fillStyle], run until one throws. *)
Fixpoint assign_fillStyles (vals : list StyleValue) (c : Context)
    : Context * outcome () :=
  match vals with
  | [] => (c, Ret ())
  | v :: vals =>
      match set_fillStyle v c with
      | (c', Ret _) => assign_fillStyles vals c'
      | r => r
      end
  end.

Definition accepted (v : StyleValue) : Prop :=
  match v with
  | StyleString s => is_Some (colorStringToUint32 s)
  | StyleGradient _ => True
  end.

(** The text and the colour a style value leaves behind. *)
Definition text_after (old : string) (v : StyleValue) : string :=
  match v with
  | StyleString s => s
  | StyleGradient _ => old
  end.

Definition color_after (old : FillColor) (v : StyleValue) : FillColor :=
  match v with
  | StyleString s => from_option Color old (colorStringToUint32 s)
  | StyleGradient g => Grad g
  end.

(** X20.  After any assignments to [fillStyle] that the parser accepts, the
    fill colour is that of the last value assigned, while the text read back
    is the last string assigned (the text from before, if none was): the
    gradients assigned in between or after it leave no trace in the text. *)
Theorem fillStyle_text_is_last_string (vals : list StyleValue) (c : Context) :
  Forall accepted vals ->
  exists c',
    assign_fillStyles vals c = (c', Ret ())
    /\ get_fillStyle c' = foldl text_after (get_fillStyle c) vals
    /\ _fillColor c' = foldl color_after (_fillColor c) vals.
Proof.
  revert c. induction vals as [|v vals IH]; intros c Hall.
  - by exists c.
  - apply Forall_cons in Hall as [Hv Hall]. cbn [assign_fillStyles foldl].
    destruct v as [s|g]; cbn [set_fillStyle accepted] in *.
    + destruct Hv as [rgba Hrgba]. unfold set_fillStyle. rewrite Hrgba.
      destruct (IH (with_fillStyle_text s (with_fillColor (Color rgba) c)) Hall)
        as (c' & Hrun & Htext & Hcol).
      exists c'. split; [exact Hrun|]. cbn [text_after color_after].
      rewrite Hrgba. done.
    + destruct (IH (with_fillColor (Grad g) c) Hall) as (c' & Hrun & Htext & Hcol).
      exists c'. done.
Qed.


End Surface.

Arguments Context_new {Matrix} m_identity b.
Arguments composite {Matrix} c i j old_pixel new_pixel.
Arguments source_alpha {Matrix} c new_pixel.
Arguments pixelInsideClip {Matrix} c x y.
Arguments with_path {Matrix} v c.
Arguments with_clip {Matrix} v c.
Arguments path {Matrix} c.
Arguments run {Matrix} m_translate m_rotate m_scale m_transformPoint calls c.
Arguments restore {Matrix} c.
Arguments set_fillStyle {Matrix} colorStringToUint32 val c.
Arguments get_fillStyle {Matrix} c.
Arguments _fillColor {Matrix} c.
Arguments same_but_transform {Matrix} c c'.
Arguments bitmap {Matrix} c.
Arguments _clip {Matrix} c.
Arguments fillPixelWithColor {Matrix} x y col c.
Arguments strokePixel {Matrix} x y c.
Arguments same_but_pixels {Matrix} c c'.
Arguments clip {Matrix} fuel c.
Arguments closePath {Matrix} c.
Arguments beginPath {Matrix} c.
Arguments with_bitmap {Matrix} v c.
Arguments clearRect {Matrix} fuel x y w h c.
Arguments assign_fillStyles {Matrix} colorStringToUint32 vals c.

(** ** The pixel buffer outside its bounds *)

Lemma calculateIndex_out_of_bounds (b : Bitmap.Bitmap) (x y : number) :
  Bitmap.out_of_bounds b x y = true -> Bitmap.calculateIndex b x y = Some 0.
Proof.
  unfold Bitmap.out_of_bounds, Bitmap.calculateIndex. cbv zeta. by intros ->.
Qed.

Lemma calculateIndex_origin (b : Bitmap.Bitmap) :
  0 < Bitmap.width b -> 0 < Bitmap.height b ->
  Bitmap.calculateIndex b 0 0 = Some 0.
Proof.
  intros Hw Hh. unfold Bitmap.calculateIndex.
  change (Math_floor 0) with (FInt 0). cbn [flt fge orb].
  rewrite !bool_decide_eq_false_2 by lia. cbn. f_equal. lia.
Qed.

(** Outside the bounds of a buffer that has a pixel, a read is the read of
    pixel (0,0) and a write is the write of pixel (0,0). *)
Lemma out_of_bounds_is_origin (b : Bitmap.Bitmap) (x y : number) (rgba : Z) :
  0 < Bitmap.width b -> 0 < Bitmap.height b ->
  Bitmap.out_of_bounds b x y = true ->
  Bitmap.getPixelRGBA b x y = Bitmap.getPixelRGBA b 0 0
  /\ Bitmap.setPixelRGBA b x y rgba = Bitmap.setPixelRGBA b 0 0 rgba.
Proof.
  intros Hw Hh Hout. unfold Bitmap.getPixelRGBA, Bitmap.setPixelRGBA.
  by rewrite (calculateIndex_out_of_bounds _ _ _ Hout),
    (calculateIndex_origin _ Hw Hh).
Qed.

(** C1.  On the 2x2 sample buffer the coordinates (-1,0) and (5,5) are out
    of bounds, yet the read at (-1,0) returns the colour of pixel (0,0), not
    0, and the write at (5,5) replaces the colour of pixel (0,0). *)
Theorem out_of_bounds_access_reaches_pixel_0_0 :
  Bitmap.out_of_bounds Bitmap.sample_bitmap (-1) 0 = true
  /\ Bitmap.getPixelRGBA Bitmap.sample_bitmap (-1) 0 = 0x11223344
  /\ Bitmap.out_of_bounds Bitmap.sample_bitmap 5 5 = true
  /\ Bitmap.getPixelRGBA Bitmap.sample_bitmap 0 0 = 0x11223344
  /\ Bitmap.getPixelRGBA
       (Bitmap.setPixelRGBA Bitmap.sample_bitmap 5 5 0xAABBCCDD) 0 0 = 0xAABBCCDD.
Proof. vm_compute. repeat split. Qed.

(** Inside the bounds a write reaches its own pixel and no other; and
    [Math.floor] sends (-0.5, 1) outside the bounds, where truncation toward
    zero would give the pixel (0,1). *)
Example in_bounds_write_then_read :
  let b := Bitmap.setPixelRGBA Bitmap.sample_bitmap 1 1 0xAABBCCDD in
  Bitmap.getPixelRGBA b 1 1 = 0xAABBCCDD
  /\ Bitmap.getPixelRGBA b 0 0 = 0x11223344
  /\ Bitmap.getPixelRGBA b 1 0 = 0
  /\ Bitmap.getPixelRGBA b 0 1 = 0.
Proof. vm_compute. repeat split. Qed.

Example floor_is_not_truncation :
  Math_floor (-0.5) = FInt (-1) /\ trunc (-0.5) = 0
  /\ Bitmap.calculateIndex Bitmap.sample_bitmap (-0.5) 1 = Some 0
  /\ Bitmap.calculateIndex Bitmap.sample_bitmap 0 1 = Some 8.
Proof. vm_compute. repeat split. Qed.

Example nan_coordinate_reads_0 :
  Bitmap.calculateIndex Bitmap.sample_bitmap nan 0 = None
  /\ Bitmap.getPixelRGBA Bitmap.sample_bitmap nan 0 = 0
  /\ Bitmap.setPixelRGBA Bitmap.sample_bitmap nan 0 0xAABBCCDD
     = Bitmap.sample_bitmap.
Proof. vm_compute. repeat split. Qed.

(** ** Flattening of quadratic curves *)

Lemma push_points_length (st : list Line * option Point) (pts : list Point) :
  length (push_points st pts).1 = (length st.1 + length pts)%nat.
Proof.
  revert st. induction pts as [|q pts IH]; intros st; cbn; [lia|].
  unfold push_points in IH. rewrite IH. cbn. rewrite length_app. cbn. lia.
Qed.

Lemma push_points_ends (st : list Line * option Point) (pts : list Point) :
  end_ <$> (push_points st pts).1 = (end_ <$> st.1) ++ (Some <$> pts).
Proof.
  revert st. induction pts as [|q pts IH]; intros st; cbn.
  - by rewrite app_nil_r.
  - unfold push_points in IH. rewrite IH. cbn.
    by rewrite fmap_app, <- app_assoc.
Qed.

Lemma push_points_prefix (st : list Line * option Point) (pts : list Point) :
  exists segs, (push_points st pts).1 = st.1 ++ segs.
Proof.
  revert st. induction pts as [|q pts IH]; intros st; cbn.
  - exists []. by rewrite app_nil_r.
  - destruct (IH (st.1 ++ [mkLine st.2 (Some q)], Some q)) as [segs Hs].
    exists (mkLine st.2 (Some q) :: segs).
    unfold push_points in Hs. rewrite Hs. cbn. by rewrite <- app_assoc.
Qed.

Lemma quadratic_loop_rounds (n fuel : nat) (p0 p1 p2 : Point) (t : number)
    (lines : list Line) (curr : option Point) :
  forallb (fun t' => (t' <? 1)%float) (ts_from n t) = true ->
  quadratic_loop (n + fuel) (Some p0, p1, p2) t lines curr
  = quadratic_loop fuel (Some p0, p1, p2) (t_after n t)
      (push_points (lines, curr) (quadratic_point p0 p1 p2 <$> ts_from n t)).1
      (push_points (lines, curr) (quadratic_point p0 p1 p2 <$> ts_from n t)).2.
Proof.
  revert t lines curr. induction n as [|n IH]; intros t lines curr Hts.
  - reflexivity.
  - cbn [forallb ts_from] in Hts. apply andb_prop in Hts as [Ht Hts].
    cbn [Nat.add quadratic_loop]. rewrite Ht.
    cbn [calcQuadraticAtT mbind outcome_bind].
    rewrite (IH _ _ _ Hts). reflexivity.
Qed.

(** C5.  For a quadratic command met with a current point, the loop of
    [pathToLines] returns after eleven rounds, not ten: it appends eleven
    segments, whose end points are the curve at the eleven values the
    counter [t] takes below 1, the last of them 0.9999999999999999. *)
Theorem quadratic_flattening_emits_eleven_segments
    (fuel : nat) (lines : list Line) (p0 cp1 pt : Point) :
  exists segs last,
    pathToLines_cmd (12 + fuel) (lines, Some p0) (QUADRATIC_CURVE cp1 pt)
    = Ret (lines ++ segs, Some last)
    /\ length segs = 11%nat
    /\ end_ <$> segs = (fun t => Some (quadratic_point p0 cp1 pt t)) <$> quadratic_ts
    /\ quadratic_ts
       = [ 0; 0x1.999999999999ap-4; 0x1.999999999999ap-3;
           0x1.3333333333334p-2; 0x1.999999999999ap-2; 0x1p-1;
           0x1.3333333333333p-1; 0x1.6666666666666p-1;
           0x1.9999999999999p-1; 0x1.cccccccccccccp-1;
           0x1.fffffffffffffp-1 ]%float.
Proof.
  pose (pts := quadratic_point p0 cp1 pt <$> quadratic_ts).
  destruct (push_points_prefix (lines, Some p0) pts) as [segs Hsegs].
  cbn [fst] in Hsegs.
  exists segs, (quadratic_point p0 cp1 pt 0x1.fffffffffffffp-1%float).
  assert (length segs = 11%nat) as Hlen.
  { pose proof (push_points_length (lines, Some p0) pts) as Hl.
    rewrite Hsegs, length_app in Hl. cbn in Hl. lia. }
  split; [|split; [exact Hlen|split]].
  - cbn [pathToLines_cmd].
    change (12 + fuel)%nat with (11 + S fuel)%nat.
    rewrite quadratic_loop_rounds by (vm_compute; reflexivity).
    fold quadratic_ts. fold pts. cbn [quadratic_loop].
    replace ((t_after 11 0 <? 1)%float) with false by (vm_compute; reflexivity).
    rewrite Hsegs. reflexivity.
  - pose proof (push_points_ends (lines, Some p0) pts) as He.
    rewrite Hsegs, fmap_app in He. cbn [fst] in He.
    apply app_inv_head in He. rewrite He. unfold pts.
    by rewrite <- list_fmap_compose.
  - vm_compute. reflexivity.
Qed.

Example quadratic_path_has_eleven_lines :
  length <$> pathToLines 12
    [MOVE (mkPoint 0 0); QUADRATIC_CURVE (mkPoint 10 10) (mkPoint 20 0)]
  = Ret 11%nat.
Proof. vm_compute. reflexivity. Qed.

(** ** Flattening of cubic curves *)

Lemma recurse_flat (fuel : nat) (THRESHOLD : number) (curve : IPointCurve) :
  (flatness curve <? THRESHOLD)%float = true ->
  recurse (S fuel) THRESHOLD curve = Ret [curve.1.1.1; curve.2].
Proof. intros Hflat. cbn [recurse]. by rewrite Hflat. Qed.

Lemma recurse_split (fuel : nat) (THRESHOLD : number) (curve : IPointCurve) :
  (flatness curve <? THRESHOLD)%float = false ->
  recurse (S fuel) THRESHOLD curve
  = l ← recurse fuel THRESHOLD (splitCurveAtT curve 0.5).1;
    r ← recurse fuel THRESHOLD (splitCurveAtT curve 0.5).2;
    Ret (l ++ r).
Proof. intros Hflat. cbn [recurse]. by rewrite Hflat. Qed.

(** More fuel does not change an answer: an answer is the answer of the
    recursion itself. *)
Lemma recurse_more_fuel (fuel : nat) (THRESHOLD : number)
    (curve : IPointCurve) (pts : list Point) :
  recurse fuel THRESHOLD curve = Ret pts ->
  recurse (S fuel) THRESHOLD curve = Ret pts.
Proof.
  revert curve pts. induction fuel as [|fuel IH]; intros curve pts; [done|].
  destruct (flatness curve <? THRESHOLD)%float eqn:Hflat.
  - by rewrite !recurse_flat.
  - rewrite (recurse_split (S fuel)), (recurse_split fuel) by done.
    destruct (recurse fuel THRESHOLD (splitCurveAtT curve 0.5).1)
      as [l| |] eqn:Hl; [|done..].
    destruct (recurse fuel THRESHOLD (splitCurveAtT curve 0.5).2)
      as [r| |] eqn:Hr; [|done..].
    by rewrite (IH _ _ Hl), (IH _ _ Hr).
Qed.

Lemma stuck_curve_not_flat : (flatness stuck_curve <? 10)%float = false.
Proof. vm_compute. reflexivity. Qed.

Lemma stuck_curve_second_half : (splitCurveAtT stuck_curve 0.5).2 = stuck_curve.
Proof. vm_compute. reflexivity. Qed.

(** C6.  The curve [stuck_curve] has finite control points and flatness 64;
    its first half is flat and its second half is the curve itself, so the
    recursion of [bezierToLines] has no answer for it, whatever the fuel. *)
Theorem bezierToLines_recursion_without_end :
  flatness stuck_curve = 64%float
  /\ (flatness stuck_curve <? 10)%float = false
  /\ (flatness (splitCurveAtT stuck_curve 0.5).1 <? 10)%float = true
  /\ (splitCurveAtT stuck_curve 0.5).2 = stuck_curve
  /\ forall fuel, bezierToLines fuel stuck_curve 10 = OutOfFuel.
Proof.
  split; [vm_compute; reflexivity|].
  split; [exact stuck_curve_not_flat|].
  split; [vm_compute; reflexivity|].
  split; [exact stuck_curve_second_half|].
  unfold bezierToLines. intros fuel.
  induction fuel as [|fuel IH]; [reflexivity|].
  rewrite recurse_split, stuck_curve_second_half, IH
    by exact stuck_curve_not_flat.
  destruct fuel as [|fuel]; [reflexivity|].
  rewrite recurse_flat by (vm_compute; reflexivity). reflexivity.
Qed.

(** The same curve as a path: [pathToLines] has no answer either. *)
Lemma pathToLines_stuck (fuel : nat) :
  pathToLines fuel
    [MOVE (mkPoint 0x1p+54 0);
     BEZIER_CURVE (mkPoint 0x1p+54 0) (mkPoint 0x1.0000000000001p+54 0)
       (mkPoint 0x1.0000000000001p+54 0)]
  = OutOfFuel.
Proof.
  unfold pathToLines. cbn [pathToLines_from pathToLines_cmd mbind outcome_bind].
  fold stuck_curve. unfold bezierToLines.
  induction fuel as [|fuel IH]; [reflexivity|].
  rewrite recurse_split, stuck_curve_second_half by exact stuck_curve_not_flat.
  destruct (recurse fuel 10 stuck_curve) as [pts| |] eqn:Hrec; try discriminate IH.
  destruct fuel as [|fuel]; [reflexivity|].
  rewrite recurse_flat by (vm_compute; reflexivity). reflexivity.
Qed.

(** A curve of ordinary size is flattened within five levels, into sixteen
    chords. *)
Example bezierToLines_ordinary_curve :
  length <$> bezierToLines 5
    (mkPoint 0 0, mkPoint 100 0, mkPoint 100 100, mkPoint 0 100) 10
  = Ret 32%nat.
Proof. vm_compute. reflexivity. Qed.

(** ** Radial gradients *)

(** Whatever is packed above it, a low byte of 255 is read back as 255. *)
Lemma alpha_of_packed_255 (b0 b1 b2 : Z) :
  Z.land (fromBytesBigEndian b0 b1 b2 255) 255 = 255.
Proof.
  unfold fromBytesBigEndian. change 255 with (Z.ones 8).
  apply Z.bits_inj'. intros n Hn. rewrite Z.land_spec.
  destruct (Z.ltb_spec n 8).
  - rewrite Z.mod_pow2_bits_low by lia.
    rewrite !Z.lor_spec, Z.ones_spec_low by lia.
    by rewrite orb_true_r.
  - rewrite Z.ones_spec_high by lia. apply andb_false_r.
Qed.

(** C8, amended.  The colour of a radial gradient with at least two stops
    is found from the distance to its centre divided by 10 and clamped to
    the range 0 to 1; red, green and blue are those of the first two stops
    interpolated at that parameter and converted back, and the alpha of the
    colour is 255 whatever the stops. *)
Theorem radial_colorAt_interpolates_rgb
    (start : Point) (s0 s1 : Gradient.ColorStop)
    (more : list Gradient.ColorStop) (x y : number) :
  let t := Gradient.radial_t start x y in
  let c0 := Gradient.color s0 in
  let c1 := Gradient.color s1 in
  exists rgba,
    Gradient.RadialGradient_colorAt
      (Gradient.mkRadial (s0 :: s1 :: more) start) x y = Ret rgba
    /\ rgba = fromBytesBigEndian (Gradient.lerp_channel 24 c0 c1 t)
                (Gradient.lerp_channel 16 c0 c1 t)
                (Gradient.lerp_channel 8 c0 c1 t) 255
    /\ Z.land rgba 255 = 255.
Proof.
  cbv zeta. eexists. split; [reflexivity|]. split; [reflexivity|].
  apply alpha_of_packed_255.
Qed.

(** Two stops of the colour [0x11223300], whose alpha is 0, around the
    centre (0,0): at (3,4) the gradient is [0x112233FF], while the
    interpolation of all four channels gives [0x11223300]. *)
Lemma radial_colorAt_alpha_counterexample :
  let g := Gradient.mkRadial
             [Gradient.mkStop 0 0x11223300; Gradient.mkStop 1 0x11223300]
             (mkPoint 0 0) in
  Gradient.RadialGradient_colorAt g 3 4 = Ret 0x112233FF
  /\ Gradient.lerp_all_channels 0x11223300 0x11223300 (Gradient.radial_t (mkPoint 0 0) 3 4)
     = 0x11223300
  /\ Gradient.RadialGradient_colorAt g 3 4
     <> Ret (Gradient.lerp_all_channels 0x11223300 0x11223300
               (Gradient.radial_t (mkPoint 0 0) 3 4)).
Proof.
  cbv zeta. repeat split; try (vm_compute; reflexivity).
  vm_compute. discriminate.
Qed.

(** ** The gradient at its centre and between equal stops *)

(** A number that is neither [NaN] nor an infinity. *)
Definition is_finite (x : number) : Prop :=
  match Prim2SF x with
  | S754_zero _ | S754_finite _ _ _ => True
  | _ => False
  end.

Lemma sub_diag_finite (x : number) : is_finite x -> (x - x)%float = 0%float.
Proof.
  intros Hx. apply Prim2SF_inj. rewrite FloatAxioms.sub_spec.
  unfold is_finite in Hx.
  destruct (Prim2SF x) as [s|s| |s m e]; try done.
  - by destruct s.
  - unfold SF64sub, SFsub. cbv zeta. rewrite Z.sub_diag. reflexivity.
Qed.

Lemma zero_mul_finite (t : number) :
  is_finite t -> (0 * t)%float = 0%float \/ (0 * t)%float = (-0)%float.
Proof.
  intros Ht. unfold is_finite in Ht.
  destruct (Prim2SF t) as [s|s| |s m e] eqn:E; try done.
  - destruct s; [right|left]; apply Prim2SF_inj;
      rewrite FloatAxioms.mul_spec, E; reflexivity.
  - destruct s; [right|left]; apply Prim2SF_inj;
      rewrite FloatAxioms.mul_spec, E; reflexivity.
Qed.

Lemma clamp_finite_or_nan (v : number) :
  is_finite (clamp v 0 1) \/ clamp v 0 1 = nan.
Proof.
  unfold clamp.
  destruct (v <? 0)%float eqn:Hlo; [left; exact I|].
  destruct (1 <? v)%float eqn:Hhi; [left; exact I|].
  rewrite FloatAxioms.ltb_spec in Hlo, Hhi. unfold is_finite.
  destruct (Prim2SF v) as [s|s| |s m e] eqn:E; auto.
  - destruct s; vm_compute in Hlo, Hhi; discriminate.
  - right. apply Prim2SF_inj. rewrite E. reflexivity.
Qed.

Lemma radial_t_centre (cx cy : number) :
  is_finite cx -> is_finite cy ->
  Gradient.radial_t (mkPoint cx cy) cx cy = 0%float.
Proof.
  intros Hx Hy. unfold Gradient.radial_t, distance. cbn [x y].
  rewrite (sub_diag_finite cx Hx), (sub_diag_finite cy Hy).
  vm_compute. reflexivity.
Qed.

(** The stops as [_lerpStops] uses them: the colours of the first two. *)
Lemma lerpStops_channels
    (s0 s1 : Gradient.ColorStop) (more : list Gradient.ColorStop) (t : number) :
  Gradient._lerpStops (s0 :: s1 :: more) t
  = Ret (fromBytesBigEndian
           (Gradient.lerp_channel 24 (Gradient.color s0) (Gradient.color s1) t)
           (Gradient.lerp_channel 16 (Gradient.color s0) (Gradient.color s1) t)
           (Gradient.lerp_channel 8 (Gradient.color s0) (Gradient.color s1) t)
           255).
Proof. reflexivity. Qed.

Lemma lerp_channel_at_0 (k c0 c1 : Z) :
  Gradient.lerp_channel k c0 c1 0 = Z.land (Z.shiftr c0 k) 255.
Proof.
  unfold Gradient.lerp_channel. apply Z.eqb_eq.
  apply (forall_bytes2
           (fun f s => trunc (lerp (unit_of_byte f) (unit_of_byte s) 0 * 255)
                       =? f));
    [vm_compute; reflexivity|apply land_255_byte|apply land_255_byte].
Qed.

Lemma lerp_channel_equal_stops (k c : Z) (t : number) :
  is_finite t -> Gradient.lerp_channel k c c t = Z.land (Z.shiftr c k) 255.
Proof.
  intros Ht. unfold Gradient.lerp_channel, lerp.
  pose proof (land_255_byte (Z.shiftr c k)) as Hb.
  set (b := Z.land (Z.shiftr c k) 255) in *.
  assert ((unit_of_byte b - unit_of_byte b)%float = 0%float) as ->.
  { apply feq_eq.
    apply (forall_bytes
             (fun b => feq (unit_of_byte b - unit_of_byte b) 0));
      [vm_compute; reflexivity|exact Hb]. }
  apply Z.eqb_eq.
  destruct (zero_mul_finite t Ht) as [-> | ->].
  - apply (forall_bytes (fun b => trunc ((unit_of_byte b + 0) * 255) =? b));
      [vm_compute; reflexivity|exact Hb].
  - apply (forall_bytes (fun b => trunc ((unit_of_byte b + -0) * 255) =? b));
      [vm_compute; reflexivity|exact Hb].
Qed.

(** X22.  At the centre of a radial gradient with at least two stops and
    finite coordinates, the colour is exactly that of the first stop in red,
    green and blue, with alpha 255: an opaque first stop is returned as it
    is. *)
Theorem radial_colorAt_centre
    (cx cy : number) (s0 s1 : Gradient.ColorStop)
    (more : list Gradient.ColorStop) :
  is_finite cx -> is_finite cy ->
  let c0 := Gradient.color s0 in
  Gradient.RadialGradient_colorAt
    (Gradient.mkRadial (s0 :: s1 :: more) (mkPoint cx cy)) cx cy
  = Ret (fromBytesBigEndian (Z.land (Z.shiftr c0 24) 255)
           (Z.land (Z.shiftr c0 16) 255) (Z.land (Z.shiftr c0 8) 255) 255)
  /\ (is_uint32 c0 -> Z.land c0 255 = 255 ->
      Gradient.RadialGradient_colorAt
        (Gradient.mkRadial (s0 :: s1 :: more) (mkPoint cx cy)) cx cy = Ret c0).
Proof.
  intros Hx Hy c0.
  assert (Gradient.RadialGradient_colorAt
            (Gradient.mkRadial (s0 :: s1 :: more) (mkPoint cx cy)) cx cy
          = Ret (fromBytesBigEndian (Z.land (Z.shiftr c0 24) 255)
                   (Z.land (Z.shiftr c0 16) 255) (Z.land (Z.shiftr c0 8) 255)
                   255)) as Hcol.
  { unfold Gradient.RadialGradient_colorAt.
    cbn [Gradient.radial_stops Gradient.radial_start].
    change (clamp (distance (mkPoint cx cy) (mkPoint cx cy) / 10) 0 1)%float
      with (Gradient.radial_t (mkPoint cx cy) cx cy).
    rewrite (radial_t_centre cx cy Hx Hy), lerpStops_channels.
    by rewrite !lerp_channel_at_0. }
  split; [exact Hcol|].
  intros Hc Ha. rewrite Hcol. f_equal.
  pose proof (fromBytes_getBytes c0 Hc) as E. rewrite Ha in E. exact E.
Qed.

(** X23.  A radial gradient whose first two stops have the same colour is
    uniform: wherever the parameter is a number (not [NaN]), the colour is
    that colour in red, green and blue, with alpha 255.  The interpolation
    adds nothing, whatever the parameter. *)
Theorem radial_colorAt_equal_stops
    (start : Point) (s0 s1 : Gradient.ColorStop)
    (more : list Gradient.ColorStop) (x0 y0 : number) :
  Gradient.color s1 = Gradient.color s0 ->
  Gradient.radial_t start x0 y0 <> nan ->
  let c0 := Gradient.color s0 in
  Gradient.RadialGradient_colorAt
    (Gradient.mkRadial (s0 :: s1 :: more) start) x0 y0
  = Ret (fromBytesBigEndian (Z.land (Z.shiftr c0 24) 255)
           (Z.land (Z.shiftr c0 16) 255) (Z.land (Z.shiftr c0 8) 255) 255).
Proof.
  intros Hsame Hnan c0.
  unfold Gradient.RadialGradient_colorAt.
  cbn [Gradient.radial_stops Gradient.radial_start].
  change (clamp (distance (mkPoint x0 y0) start / 10) 0 1)%float
    with (Gradient.radial_t start x0 y0).
  assert (is_finite (Gradient.radial_t start x0 y0)) as Ht.
  { unfold Gradient.radial_t in *.
    by destruct (clamp_finite_or_nan (distance (mkPoint x0 y0) start / 10)). }
  rewrite lerpStops_channels, Hsame.
  by rewrite !(lerp_channel_equal_stops _ _ _ Ht).
Qed.

(** X24.  [_lerpStops] throws a [TypeError] exactly when the gradient has
    fewer than two stops; with two or more it returns, and only the colours
    of the first two stops matter: the positions given to [addColorStop] and
    the stops after the second are never read. *)
Theorem lerpStops_reads_two_colors
    (stops : list Gradient.ColorStop) (t : number) :
  (Gradient._lerpStops stops t = Throw TypeError <-> (length stops < 2)%nat)
  /\ (forall s0 s1 more t0 t1,
        stops = s0 :: s1 :: more ->
        Gradient._lerpStops stops t
        = Gradient._lerpStops
            [Gradient.mkStop t0 (Gradient.color s0);
             Gradient.mkStop t1 (Gradient.color s1)] t
        /\ exists rgba, Gradient._lerpStops stops t = Ret rgba
                        /\ is_uint32 rgba /\ Z.land rgba 255 = 255).
Proof.
  split.
  - destruct stops as [|s0 [|s1 more]]; cbn [length].
    + split; [lia|reflexivity].
    + split; [lia|reflexivity].
    + rewrite lerpStops_channels. split; [discriminate|lia].
  - intros s0 s1 more t0 t1 ->. split; [reflexivity|].
    rewrite lerpStops_channels. eexists. split; [reflexivity|].
    split; [|apply alpha_of_packed_255].
    unfold fromBytesBigEndian, is_uint32. apply Z.mod_pos_bound. lia.
Qed.

(** ** A surface to run the results on *)

Definition fresh : Context Affine := Context_new affine_identity (Bitmap.new 2 2).

Definition run_affine :=
  run affine_translate affine_rotate_0 affine_scale affine_transformPoint.

(** An opaque source over a translucent destination, and a transparent
    source over an opaque one. *)
Lemma composite_opaque_and_transparent_witness :
  composite fresh 0 0 0x10203040 0xAABBCCFF = 0xAABBCCFF
  /\ composite fresh 0 0 0x102030FF 0xAABBCC00 = 0x102030FF
  /\ composite fresh 0 0 0x10203000 0xAABBCC00 = 0.
Proof.
  split; [|split].
  - apply (composite_opaque_and_transparent Affine fresh 0 0 0x10203040 0xAABBCCFF).
    + unfold is_uint32. lia.
    + unfold is_uint32. lia.
    + vm_compute. reflexivity.
    + reflexivity.
  - apply (composite_opaque_and_transparent Affine fresh 0 0 0x102030FF 0xAABBCC00).
    + unfold is_uint32. lia.
    + unfold is_uint32. lia.
    + vm_compute. reflexivity.
    + reflexivity.
  - apply (composite_opaque_and_transparent Affine fresh 0 0 0x10203000 0xAABBCC00).
    + unfold is_uint32. lia.
    + unfold is_uint32. lia.
    + vm_compute. reflexivity.
    + reflexivity.
Defined.

(** A transparent source over the destination [0xFF000000], red with alpha
    0: the scaled alpha of the source is 0 and the result is 0, which is not
    the destination. *)
Lemma composite_transparent_over_transparent_counterexample :
  source_alpha fresh 0 = 0%float
  /\ composite fresh 0 0 0xFF000000 0 = 0
  /\ composite fresh 0 0 0xFF000000 0 <> 0xFF000000.
Proof.
  repeat split; try (vm_compute; reflexivity). vm_compute. discriminate.
Qed.

(** The rounding that the amended claim leaves out: a transparent source
    over [0x03030303] gives [0x02020202]. *)
Lemma composite_transparent_rounding :
  composite fresh 0 0 0x03030303 0 = 0x02020202.
Proof. vm_compute. reflexivity. Qed.

Lemma path_points_baked_at_insertion_witness :
  exists c1 c2 : Context Affine,
    run_affine [CTranslate 10 0; CRotate 0; CMoveTo 0 0; CScale 2 2; CLineTo 3 4]
      (with_path (Some []) fresh) = (c1, Ret ())
    /\ path c1 = Some ([] ++ [MOVE (mkPoint 10 0); LINE (Some (mkPoint 16 8))])
    /\ run_affine [CSave; CTranslate 1 1; CScale 3 3; CRestore; CRotate 0] c1
       = (c2, Ret ())
    /\ path c2 = path c1.
Proof.
  exact (path_points_baked_at_insertion Affine affine_translate affine_rotate_0
           affine_scale affine_transformPoint
           [CTranslate 10 0; CRotate 0; CMoveTo 0 0; CScale 2 2; CLineTo 3 4]
           [CSave; CTranslate 1 1; CScale 3 3; CRestore; CRotate 0]
           (with_path (Some []) fresh) [] eq_refl eq_refl).
Defined.

Lemma pixelInsideClip_even_odd_witness :
  pixelInsideClip (with_clip (Some (segment <$> triangle)) fresh) 5 5 = Ret true
  /\ pixelInsideClip (with_clip (Some (segment <$> triangle)) fresh) 9 5 = Ret false
  /\ pixelInsideClip fresh 9 5 = Ret true.
Proof.
  split; [|split].
  - exact (proj1 (pixelInsideClip_even_odd Affine
                    (with_clip (Some (segment <$> triangle)) fresh) triangle 5 5)
             eq_refl).
  - exact (proj1 (pixelInsideClip_even_odd Affine
                    (with_clip (Some (segment <$> triangle)) fresh) triangle 9 5)
             eq_refl).
  - exact (proj2 (pixelInsideClip_even_odd Affine fresh [] 9 5) eq_refl).
Defined.

Lemma save_restore_only_transform_witness :
  (exists c' : Context Affine,
     run_affine [CSave; CSave; CRestore; CRestore; CRestore] fresh = (c', Ret ())
     /\ same_but_transform fresh c')
  /\ (@nil Affine = [] -> restore fresh = (fresh, Ret ())).
Proof.
  exact (save_restore_only_transform Affine affine_translate affine_rotate_0
           affine_scale affine_transformPoint
           [CSave; CSave; CRestore; CRestore; CRestore] fresh eq_refl).
Defined.

Lemma fillStyle_gradient_keeps_text_witness :
  let g := Gradient.Radial (Gradient.mkRadial [] (mkPoint 0 0)) in
  exists c2 : Context Affine,
    set_fillStyle two_colors (StyleGradient g)
      (set_fillStyle two_colors (StyleString "red") fresh).1 = (c2, Ret ())
    /\ _fillColor c2 = Grad g
    /\ get_fillStyle c2 = "red".
Proof.
  exact (fillStyle_gradient_keeps_text Affine two_colors fresh
           (set_fillStyle two_colors (StyleString "red") fresh).1 "red"
           (Gradient.Radial (Gradient.mkRadial [] (mkPoint 0 0))) eq_refl).
Defined.

(** ** The further results on concrete surfaces *)

(** A surface on the 2x2 buffer whose pixel (0,0) is [0x11223344]. *)
Definition sample : Context Affine :=
  Context_new affine_identity Bitmap.sample_bitmap.

Lemma sample_bitmap_wf : Bitmap.wf Bitmap.sample_bitmap.
Proof. vm_compute. repeat split; try reflexivity; discriminate. Defined.

Lemma new_2_2_wf : Bitmap.wf (Bitmap.new 2 2).
Proof. vm_compute. repeat split; try reflexivity; discriminate. Defined.

Lemma sample_in_bounds_1_1 : Bitmap.in_bounds Bitmap.sample_bitmap 1 1 1 1.
Proof. vm_compute. repeat split; try reflexivity; discriminate. Defined.

Lemma sample_in_bounds_0_0 : Bitmap.in_bounds Bitmap.sample_bitmap 0 0 0 0.
Proof. vm_compute. repeat split; try reflexivity; discriminate. Defined.

Lemma new_2_2_in_bounds_1_1 : Bitmap.in_bounds (Bitmap.new 2 2) 1 1 1 1.
Proof. vm_compute. repeat split; try reflexivity; discriminate. Defined.

Lemma setPixelRGBA_then_getPixelRGBA_witness :
  Bitmap.getPixelRGBA (Bitmap.setPixelRGBA Bitmap.sample_bitmap 1 1 0xAABBCCDD) 1 1
  = 0xAABBCCDD
  /\ Bitmap.getPixelRGBA (Bitmap.setPixelRGBA Bitmap.sample_bitmap 1 1 0xAABBCCDD) 0 0
     = Bitmap.getPixelRGBA Bitmap.sample_bitmap 0 0.
Proof.
  assert (is_uint32 0xAABBCCDD) as Hc by (unfold is_uint32; lia).
  pose proof (setPixelRGBA_then_getPixelRGBA Bitmap.sample_bitmap 1 1 1 1
                0xAABBCCDD sample_bitmap_wf sample_in_bounds_1_1 Hc) as [H1 H2].
  split; [exact H1|].
  apply (H2 0%float 0%float 0 0 sample_in_bounds_0_0). discriminate.
Defined.

Lemma setPixelRGBA_i_then_separate_witness :
  Bitmap.getPixelRGBA_separate
    (Bitmap.setPixelRGBA_i Bitmap.sample_bitmap 1 1 300 17.5 0 255) 1 1
  = [trunc 300 mod 256; trunc 17.5 mod 256; trunc 0 mod 256; trunc 255 mod 256]
  /\ Bitmap.getPixelRGBA
       (Bitmap.setPixelRGBA_i Bitmap.sample_bitmap 1 1 300 17.5 0 255) 1 1
     = fromBytesBigEndian (trunc 300 mod 256) (trunc 17.5 mod 256)
         (trunc 0 mod 256) (trunc 255 mod 256).
Proof.
  exact (setPixelRGBA_i_then_separate Bitmap.sample_bitmap 1 1 1 1 300 17.5 0 255
           sample_bitmap_wf sample_in_bounds_1_1).
Defined.

Lemma fillPixelWithColor_opaque_witness :
  exists c' : Context Affine,
    fillPixelWithColor 1 1 0xAABBCCFF fresh = (c', Ret ())
    /\ Bitmap.getPixelRGBA (bitmap c') 1 1 = 0xAABBCCFF.
Proof.
  assert (is_uint32 0xAABBCCFF) as Hc by (unfold is_uint32; lia).
  destruct (fillPixelWithColor_opaque Affine fresh 1 1 1 1 0xAABBCCFF
              eq_refl eq_refl new_2_2_wf new_2_2_in_bounds_1_1 Hc eq_refl)
    as (c' & Hfill & Hget & _).
  exists c'. split; [exact Hfill|exact Hget].
Defined.

Lemma pathToLines_curve_without_current_point_witness :
  pathToLines 1 [QUADRATIC_CURVE (mkPoint 1 1) (mkPoint 2 2); LINE (Some (mkPoint 3 3))]
  = Throw TypeError.
Proof.
  exact (pathToLines_curve_without_current_point 0
           (QUADRATIC_CURVE (mkPoint 1 1) (mkPoint 2 2))
           [LINE (Some (mkPoint 3 3))] eq_refl).
Defined.

Lemma bezierToLines_end_points_witness :
  exists st,
    pathToLines_cmd 5 ([], Some (mkPoint 0 0))
      (BEZIER_CURVE (mkPoint 100 0) (mkPoint 100 100) (mkPoint 0 100)) = Ret st
    /\ st.2 = Some (mkPoint 0 100)
    /\ length st.1 = 32%nat.
Proof.
  destruct (pathToLines_cmd 5 ([], Some (mkPoint 0 0))
              (BEZIER_CURVE (mkPoint 100 0) (mkPoint 100 100) (mkPoint 0 100)))
    as [st| |] eqn:E; [|vm_compute in E; discriminate E..].
  exists st. split; [reflexivity|].
  split.
  - exact (proj1 (bezierToLines_end_points 5 [] (mkPoint 0 0) (mkPoint 100 0)
                    (mkPoint 100 100) (mkPoint 0 100) st E)).
  - vm_compute in E. injection E as <-. reflexivity.
Defined.

Lemma clip_test_ignores_segment_order_witness :
  pixelInsideClip (with_clip (Some (segment <$> triangle)) fresh) 5 5
  = pixelInsideClip (with_clip (Some (segment <$> reverse triangle)) fresh) 5 5.
Proof.
  apply (clip_test_ignores_segment_order Affine
           (with_clip (Some (segment <$> triangle)) fresh)
           (with_clip (Some (segment <$> reverse triangle)) fresh)
           triangle (reverse triangle) 5 5 eq_refl eq_refl).
  symmetry. apply reverse_Permutation.
Defined.

Lemma clip_test_of_two_boundaries_witness :
  pixelInsideClip (with_clip (Some (segment <$> triangle ++ triangle)) fresh) 5 5
  = Ret false.
Proof.
  destruct (clip_test_of_two_boundaries Affine
              (with_clip (Some (segment <$> triangle ++ triangle)) fresh)
              (with_clip (Some (segment <$> triangle)) fresh)
              (with_clip (Some (segment <$> triangle)) fresh)
              triangle triangle 5 5 eq_refl eq_refl eq_refl)
    as (in1 & in2 & _ & _ & _ & Hsame).
  exact (Hsame eq_refl).
Defined.

Lemma clip_of_empty_path_witness :
  exists c' : Context Affine,
    clip 0 (with_path (Some []) fresh) = (c', Ret ())
    /\ _clip c' = Some []
    /\ pixelInsideClip c' 1 1 = Ret false.
Proof.
  destruct (clip_of_empty_path Affine 0 (with_path (Some []) fresh) eq_refl)
    as (c' & Hclip & Hempty & Hall).
  exists c'. split; [exact Hclip|]. split; [exact Hempty|].
  exact (proj1 (Hall 1%float 1%float 0)).
Defined.

Lemma clip_of_path_starting_with_line_witness :
  exists c' : Context Affine,
    clip 0 (with_path (Some [LINE (Some (mkPoint 1 1)); LINE (Some (mkPoint 2 0))])
              fresh) = (c', Ret ())
    /\ pixelInsideClip c' 1 1 = Throw TypeError.
Proof.
  destruct (clip_of_path_starting_with_line Affine 0
              (with_path (Some [LINE (Some (mkPoint 1 1)); LINE (Some (mkPoint 2 0))])
                 fresh)
              (Some (mkPoint 1 1)) [LINE (Some (mkPoint 2 0))] eq_refl eq_refl)
    as (c' & Hclip & Hall).
  exists c'. split; [exact Hclip|]. exact (proj1 (Hall 1%float 1%float 0)).
Defined.

Lemma closePath_targets_moveTo_point_witness :
  exists c1 c2 : Context Affine,
    run_affine [CMoveTo 1 2; CLineTo 3 4; CTranslate 10 0; CLineTo 1 1]
      (with_path (Some []) fresh) = (c1, Ret ())
    /\ closePath c1 = (c2, Ret ())
    /\ path c2
       = Some [MOVE (mkPoint 1 2); LINE (Some (mkPoint 3 4));
               LINE (Some (mkPoint 11 1)); LINE (Some (mkPoint 1 2))].
Proof.
  destruct (closePath_targets_moveTo_point Affine affine_translate
              affine_rotate_0 affine_scale affine_transformPoint
              [CLineTo 3 4; CTranslate 10 0; CLineTo 1 1]
              (with_path (Some []) fresh) [] 1 2 eq_refl eq_refl)
    as (c1 & c2 & Hrun & Hclose & Hpath).
  exists c1, c2. split; [exact Hrun|]. split; [exact Hclose|].
  rewrite Hpath. vm_compute. reflexivity.
Defined.

Lemma fillStyle_text_is_last_string_witness :
  let g := Gradient.Radial (Gradient.mkRadial [] (mkPoint 0 0)) in
  exists c' : Context Affine,
    assign_fillStyles two_colors
      [StyleString "red"; StyleGradient g; StyleString "transparent";
       StyleGradient g] fresh = (c', Ret ())
    /\ get_fillStyle c' = "transparent"
    /\ _fillColor c' = Grad g.
Proof.
  intros g.
  assert (Forall (accepted two_colors)
            [StyleString "red"; StyleGradient g; StyleString "transparent";
             StyleGradient g]) as Hall.
  { repeat constructor; vm_compute; eauto. }
  exact (fillStyle_text_is_last_string Affine two_colors _ fresh Hall).
Defined.

Lemma radial_colorAt_centre_witness :
  Gradient.RadialGradient_colorAt
    (Gradient.mkRadial [Gradient.mkStop 0 0x11223344; Gradient.mkStop 1 0xAABBCCDD]
       (mkPoint 3 4)) 3 4
  = Ret 0x112233FF
  /\ Gradient.RadialGradient_colorAt
       (Gradient.mkRadial [Gradient.mkStop 0 0x112233FF; Gradient.mkStop 1 0xAABBCCDD]
          (mkPoint 3 4)) 3 4
     = Ret 0x112233FF.
Proof.
  split.
  - exact (proj1 (radial_colorAt_centre 3 4 (Gradient.mkStop 0 0x11223344)
                    (Gradient.mkStop 1 0xAABBCCDD) [] I I)).
  - apply (proj2 (radial_colorAt_centre 3 4 (Gradient.mkStop 0 0x112233FF)
                    (Gradient.mkStop 1 0xAABBCCDD) [] I I)).
    + unfold is_uint32. cbn. lia.
    + reflexivity.
Defined.

Lemma radial_colorAt_equal_stops_witness :
  Gradient.RadialGradient_colorAt
    (Gradient.mkRadial [Gradient.mkStop 0 0x11223344; Gradient.mkStop 1 0x11223344]
       (mkPoint 0 0)) 3 4
  = Ret 0x112233FF.
Proof.
  apply (radial_colorAt_equal_stops (mkPoint 0 0) (Gradient.mkStop 0 0x11223344)
           (Gradient.mkStop 1 0x11223344) [] 3 4 eq_refl).
  intros H. apply (f_equal Prim2SF) in H. vm_compute in H. discriminate H.
Defined.

Lemma clearRect_keeps_shape_witness :
  clearRect 10 0 0 2 2 sample = (with_bitmap (Bitmap.new 2 2) sample, Ret ())
  /\ same_but_pixels sample (with_bitmap (Bitmap.new 2 2) sample)
  /\ Bitmap.wf (bitmap (with_bitmap (Bitmap.new 2 2) sample)).
Proof.
  assert (clearRect 10 0 0 2 2 sample
          = (with_bitmap (Bitmap.new 2 2) sample, Ret ())) as Hclear
    by (vm_compute; reflexivity).
  destruct (clearRect_keeps_shape Affine 10 0 0 2 2 sample
              (with_bitmap (Bitmap.new 2 2) sample) Hclear)
    as (Hsame & _ & Hwf).
  split; [exact Hclear|]. split; [exact Hsame|]. exact (Hwf sample_bitmap_wf).
Defined.

Lemma clearRect_one_pixel_witness :
  Bitmap.getPixelRGBA (bitmap sample) 0 0 = 0x11223344
  /\ exists c' : Context Affine,
       clearRect 3 0 0 1 1 sample = (c', Ret ())
       /\ Bitmap.getPixelRGBA (bitmap c') 0 0 = 0.
Proof.
  split; [vm_compute; reflexivity|].
  destruct (clearRect_one_pixel Affine 0 sample 0 0 0 0 eq_refl eq_refl
              sample_bitmap_wf sample_in_bounds_0_0)
    as (c' & Hclear & _ & Hget & _).
  exists c'. split; [exact Hclear|exact Hget].
Defined.
